(** * The C++ parser-generator trait of the syntax tool

    A shallow embedding of [src/plugins/cpp/cpp-parser-generator-trait.js]
    and the properties of its generated text.

    Conventions of the embedding.
    - A JavaScript string is a [string]; its characters are the code units
      below 256, so the whitespace class holds the no-break space (160) but
      none of the wider Unicode spaces.
    - A JavaScript object used as a dictionary is a [gmap] where only lookups
      and writes are made, and an association list in enumeration order
      where the code walks its keys ([Object.keys], [for ... in]).
    - The generator object [this] is the record [Generator]; a method is a
      function of the monad [Gen], which threads the generator and stops at
      a thrown error, keeping the generator as it was when the error was
      thrown.
    - Numbers are naturals; a number put into a template literal is written in
      decimal ([pretty]). *)

From stdpp Require Import base strings list gmap pretty.
From Stdlib Require Import Ascii.

(** ** Characters and strings *)

Definition nl : string := String "010"%char "".
Definition dq : string := String "034"%char "".

(** [\s], also the characters [trim] removes. *)
Definition js_space (c : ascii) : bool :=
  match nat_of_ascii c with
  | 9 | 10 | 11 | 12 | 13 | 32 | 160 => true
  | _ => false
  end.

(** [\w]: letters, digits and the underscore. *)
Definition js_word (c : ascii) : bool :=
  let n := nat_of_ascii c in
  (Nat.leb 48 n && Nat.leb n 57) || (Nat.leb 65 n && Nat.leb n 90)
  || (Nat.leb 97 n && Nat.leb n 122) || Nat.eqb n 95.

Definition is_semicolon (c : ascii) : bool := Ascii.eqb c ";"%char.
Definition not_semicolon (c : ascii) : bool := negb (is_semicolon c).
Definition is_quote (c : ascii) : bool :=
  Ascii.eqb c "'"%char || Ascii.eqb c "034"%char.

Fixpoint take_str (n : nat) (s : string) : string :=
  match n, s with
  | S n', String c s' => String c (take_str n' s')
  | _, _ => ""
  end.

Fixpoint drop_str (n : nat) (s : string) : string :=
  match n, s with
  | S n', String _ s' => drop_str n' s'
  | _, _ => s
  end.

Fixpoint all_str (p : ascii → bool) (s : string) : bool :=
  match s with
  | "" => true
  | String c s' => p c && all_str p s'
  end.

(** [s.startsWith(p)] *)
Fixpoint startsWith (p s : string) : bool :=
  match p, s with
  | "", _ => true
  | String a p', String b s' => Ascii.eqb a b && startsWith p' s'
  | String _ _, "" => false
  end.

(** [s.includes(p)] *)
Fixpoint includes (s p : string) : bool :=
  startsWith p s ||
  match s with
  | "" => false
  | String _ s' => includes s' p
  end.

(** The number of positions of [s] at which [p] occurs. *)
Fixpoint occurrences (p s : string) : nat :=
  (if startsWith p s then 1 else 0) +
  match s with
  | "" => 0
  | String _ s' => occurrences p s'
  end.

(** [s.slice(1)] and [s[0]] *)
Definition slice1 (s : string) : string := drop_str 1 s.
Definition char0 (s : string) : option ascii :=
  match s with
  | "" => None
  | String c _ => Some c
  end.

Fixpoint trimStart (s : string) : string :=
  match s with
  | "" => ""
  | String c s' => if js_space c then trimStart s' else s
  end.

Fixpoint trimEnd (s : string) : string :=
  match s with
  | "" => ""
  | String c s' =>
      match trimEnd s' with
      | "" => if js_space c then "" else String c ""
      | t => String c t
      end
  end.

(** [s.trim()] *)
Definition trim (s : string) : string := trimEnd (trimStart s).

(** [xs.join(sep)] *)
Fixpoint join (sep : string) (xs : list string) : string :=
  match xs with
  | [] => ""
  | [x] => x
  | x :: rest => x +:+ sep +:+ join sep rest
  end.

Fixpoint concat_str (xs : list string) : string :=
  match xs with
  | [] => ""
  | x :: rest => x +:+ concat_str rest
  end.

(** ** Regular expressions

    The fragment of JavaScript's regular expressions the trait uses, run by
    a backtracking matcher in continuation-passing style: the alternatives
    are tried in JavaScript's order (left alternative first, greedy
    quantifiers longest first, lazy ones shortest first), and the first
    complete match wins. Quantifiers range over character classes only. *)

Inductive regex : Type :=
  | Lit (t : string)
  | Cls (p : ascii → bool)
  | Seq (r1 r2 : regex)
  | Alt (r1 r2 : regex)
  | Star (p : ascii → bool)
  | Plus (p : ascii → bool)
  | PlusLazy (p : ascii → bool)
  | Bol
  | Eol
  | WordB
  | Group (r : regex).

(** The matcher's position: how many characters the match holds so far,
    the character before the position, the text from the position on, and
    what capture group 1 holds. *)
Record mstate : Type := MState {
  consumed : nat;
  before : option ascii;
  rest : string;
  group1 : option string
}.

Definition step (c : ascii) (s' : string) (m : mstate) : mstate :=
  {| consumed := S (consumed m); before := Some c; rest := s';
     group1 := group1 m |}.

Definition set_group (t : string) (m : mstate) : mstate :=
  {| consumed := consumed m; before := before m; rest := rest m;
     group1 := Some t |}.

Definition word_opt (c : option ascii) : bool :=
  match c with
  | Some c => js_word c
  | None => false
  end.

Fixpoint lit (t : string) (m : mstate) (k : mstate → option mstate)
  : option mstate :=
  match t with
  | "" => k m
  | String a t' =>
      match rest m with
      | String c s' => if Ascii.eqb a c then lit t' (step c s' m) k else None
      | "" => None
      end
  end.

Fixpoint star_greedy (p : ascii → bool) (s : string) (m : mstate)
  (k : mstate → option mstate) : option mstate :=
  match s with
  | String c s' =>
      if p c then
        match star_greedy p s' (step c s' m) k with
        | Some r => Some r
        | None => k m
        end
      else k m
  | "" => k m
  end.

Fixpoint star_lazy (p : ascii → bool) (s : string) (m : mstate)
  (k : mstate → option mstate) : option mstate :=
  match k m with
  | Some r => Some r
  | None =>
      match s with
      | String c s' => if p c then star_lazy p s' (step c s' m) k else None
      | "" => None
      end
  end.

Definition one (p : ascii → bool) (m : mstate) (k : mstate → option mstate)
  : option mstate :=
  match rest m with
  | String c s' => if p c then k (step c s' m) else None
  | "" => None
  end.

Fixpoint exec (r : regex) (m : mstate) (k : mstate → option mstate)
  : option mstate :=
  match r with
  | Lit t => lit t m k
  | Cls p => one p m k
  | Seq r1 r2 => exec r1 m (λ m', exec r2 m' k)
  | Alt r1 r2 =>
      match exec r1 m k with
      | Some r => Some r
      | None => exec r2 m k
      end
  | Star p => star_greedy p (rest m) m k
  | Plus p => one p m (λ m', star_greedy p (rest m') m' k)
  | PlusLazy p => one p m (λ m', star_lazy p (rest m') m' k)
  | Bol => match before m with None => k m | Some _ => None end
  | Eol => match rest m with "" => k m | String _ _ => None end
  | WordB =>
      if xorb (word_opt (before m)) (word_opt (char0 (rest m)))
      then k m else None
  | Group r' =>
      exec r' m
        (λ m', k (set_group (take_str (consumed m' - consumed m) (rest m)) m'))
  end.

(** A match that starts right here, [b] being the character before. *)
Definition match_at (r : regex) (b : option ascii) (s : string)
  : option mstate :=
  exec r {| consumed := 0; before := b; rest := s; group1 := None |} Some.

Fixpoint search (r : regex) (b : option ascii) (s : string) : bool :=
  match match_at r b s with
  | Some _ => true
  | None =>
      match s with
      | String c s' => search r (Some c) s'
      | "" => false
      end
  end.

(** [r.test(s)] for a regular expression without the [g] flag. *)
Definition test (r : regex) (s : string) : bool := search r None s.

(** [s.replace(r, cb)] for [r] with the [g] flag: the matches are looked
    for from left to right, each one after the end of the one before; the
    callback gets the matched text and capture group 1. [skip] counts the
    characters of the current match still to be passed over. After an empty
    match the next character is copied and the search goes on behind it. *)
Fixpoint replace_go (r : regex) (cb : string → option string → string)
  (skip : nat) (b : option ascii) (s : string) : string :=
  match skip with
  | S n =>
      match s with
      | String c s' => replace_go r cb n (Some c) s'
      | "" => ""
      end
  | 0 =>
      match match_at r b s with
      | Some m =>
          cb (take_str (consumed m) s) (group1 m) +:+
          match s with
          | String c s' =>
              match consumed m with
              | 0 => String c (replace_go r cb 0 (Some c) s')
              | S n => replace_go r cb n (Some c) s'
              end
          | "" => ""
          end
      | None =>
          match s with
          | String c s' => String c (replace_go r cb 0 (Some c) s')
          | "" => ""
          end
      end
  end.

Definition replace_all (r : regex) (cb : string → option string → string)
  (s : string) : string :=
  replace_go r cb 0 None s.

(** The same walk, keeping the pieces apart: a character that is copied, or
    a match with its capture. *)
Inductive piece : Type :=
  | Kept (c : ascii)
  | Hit (matched : string) (capture : option string).

Fixpoint pieces_go (r : regex) (skip : nat) (b : option ascii) (s : string)
  : list piece :=
  match skip with
  | S n =>
      match s with
      | String c s' => pieces_go r n (Some c) s'
      | "" => []
      end
  | 0 =>
      match match_at r b s with
      | Some m =>
          Hit (take_str (consumed m) s) (group1 m) ::
          match s with
          | String c s' =>
              match consumed m with
              | 0 => Kept c :: pieces_go r 0 (Some c) s'
              | S n => pieces_go r n (Some c) s'
              end
          | "" => []
          end
      | None =>
          match s with
          | String c s' => Kept c :: pieces_go r 0 (Some c) s'
          | "" => []
          end
      end
  end.

Definition pieces (r : regex) (s : string) : list piece :=
  pieces_go r 0 None s.

Definition piece_source (p : piece) : string :=
  match p with
  | Kept c => String c ""
  | Hit matched _ => matched
  end.

Definition piece_output (cb : string → option string → string) (p : piece)
  : string :=
  match p with
  | Kept c => String c ""
  | Hit matched capture => cb matched capture
  end.

(** The regular expressions of the trait. *)

(** [/;\s*$/] *)
Definition re_ends_with_semicolon : regex :=
  Seq (Lit ";") (Seq (Star js_space) Eol).

(** [/yytext/g] *)
Definition re_yytext : regex := Lit "yytext".

(** [/\b__\b/g] *)
Definition re_result_var : regex := Seq WordB (Seq (Lit "__") WordB).

(** [/return\s+([^;]+?);/g] *)
Definition tokenRe : regex :=
  Seq (Lit "return")
    (Seq (Plus js_space) (Seq (Group (PlusLazy not_semicolon)) (Lit ";"))).

(** [/^Q|Q$/g], where the class Q holds the single and the double quote *)
Definition re_outer_quote : regex :=
  Alt (Seq Bol (Cls is_quote)) (Seq (Cls is_quote) Eol).

(** [/\b(?:using|class|struct)\s+Value\b|\btypedef\s+\w+\s+Value/] *)
Definition re_value_type : regex :=
  Alt
    (Seq WordB
       (Seq (Alt (Lit "using") (Alt (Lit "class") (Lit "struct")))
          (Seq (Plus js_space) (Seq (Lit "Value") WordB))))
    (Seq WordB
       (Seq (Lit "typedef")
          (Seq (Plus js_space)
             (Seq (Plus js_word) (Seq (Plus js_space) (Lit "Value")))))).

(** the double quote, with the [g] flag *)
Definition re_double_quote : regex := Lit dq.

(** ** JavaScript objects walked in enumeration order

    An object is the list of its own properties in enumeration order; the
    keys of an object are pairwise different. Reading [o[k]] for every key
    [k] of [Object.keys(o)] is walking the pairs of the list. *)

Definition obj_keys {V} (o : list (string * V)) : list string := o.*1.

(** [o[k] = v]: an own property keeps its place, a new one goes last. *)
Fixpoint obj_set {V} (k : string) (v : V) (o : list (string * V))
  : list (string * V) :=
  match o with
  | [] => [(k, v)]
  | (k', v') :: o' =>
      if decide (k' = k) then (k, v) :: o' else (k', v') :: obj_set k v o'
  end.

(** [a[i] = v] on an array: an index past the end extends the array, the
    holes in between being written as the empty text by [join]. *)
Fixpoint array_set (i : nat) (v : string) (a : list string) : list string :=
  match i, a with
  | 0, [] => [v]
  | 0, _ :: a' => v :: a'
  | S i', [] => "" :: array_set i' v []
  | S i', x :: a' => x :: array_set i' v a'
  end.

(** The values the trait puts into its maps: a text, a number, or an array
    of numbers. *)
Inductive jsval : Type :=
  | VStr (s : string)
  | VNum (n : nat)
  | VArr (xs : list nat).

(** A value inside a template literal. *)
Definition to_text (v : jsval) : string :=
  match v with
  | VStr s => s
  | VNum n => pretty n
  | VArr xs => join "," (pretty <$> xs)
  end.

(** [entry[0]]: a character of a text; a number has none, and the first
    element of an array is no character. *)
Definition first_char (v : jsval) : option ascii :=
  match v with
  | VStr s => char0 s
  | _ => None
  end.

(** [entry.slice(1)] *)
Definition slice1_val (v : jsval) : string :=
  match v with
  | VStr s => slice1 s
  | VNum n => ""
  | VArr xs => join "," (pretty <$> drop 1 xs)
  end.

(** ** The collaborators of the trait

    The grammar, its productions and the lexical grammar are read only; the
    trait asks them the questions below. A symbol is its name. *)

Record Production : Type := {
  getLHS : string;
  getRHS : list string;
  isEpsilon : bool;
  derivesPropagatingToken : bool;
  getRawSemanticAction : option string
}.

Record LexRule : Type := {
  getRawMatcher : string;
  getRawHandler : string
}.

Record LexGrammar : Type := {
  getRules : list LexRule;
  getRulesByStartConditions : list (string * list LexRule);
  getRuleIndex : LexRule → nat
}.

Record Grammar : Type := {
  getProductions : list Production;
  isTokenSymbol : string → bool;
  _tokensMap : gset string;
  getModuleInclude : string;
  getLexGrammar : LexGrammar
}.

(** A row of the parsing table, and the table: the rows live in a store and
    the table maps a state to the place of its row, so that two states
    holding one row object are told apart from two states with equal
    rows. *)
Definition Row : Type := list (string * jsval).

(** The key and value types the trait passes to [_toCppMap]; it passes no
    other, so the default case of [_mapKey], which throws, is never
    reached. *)
Inductive keyType : Type := KeyString | KeyNumber | KeyRaw.
Inductive valueType : Type := ValString | ValNumber | ValRaw.

(** ** The generator *)

Record Handler : Type := {
  args : string;
  action : string
}.

Record Generator : Type := {
  _grammar : Grammar;
  _tokens : list (string * nat);
  _terminalsMap : gmap string nat;
  _productionHandlers : list Handler;
  _lexHandlers : list Handler;
  slots : gmap string string
}.

Inductive Result (A : Type) : Type :=
  | Ok (a : A) (this : Generator)
  | Throw (message : string) (this : Generator).
Arguments Ok {A} a this.
Arguments Throw {A} message this.

Definition Gen (A : Type) : Type := Generator → Result A.

#[global] Instance Gen_ret : MRet Gen := λ A a this, Ok a this.
#[global] Instance Gen_bind : MBind Gen := λ A B f m this,
  match m this with
  | Ok a this' => f a this'
  | Throw message this' => Throw message this'
  end.

Definition get_this : Gen Generator := λ this, Ok this this.
Definition throw {A} (message : string) : Gen A := λ this, Throw message this.

Definition with_terminalsMap (terminalsMap : gmap string nat)
  (this : Generator) : Generator :=
  {| _grammar := _grammar this; _tokens := _tokens this;
     _terminalsMap := terminalsMap;
     _productionHandlers := _productionHandlers this;
     _lexHandlers := _lexHandlers this; slots := slots this |}.

Definition with_productionHandlers (handlers : list Handler)
  (this : Generator) : Generator :=
  {| _grammar := _grammar this; _tokens := _tokens this;
     _terminalsMap := _terminalsMap this;
     _productionHandlers := handlers;
     _lexHandlers := _lexHandlers this; slots := slots this |}.

Definition with_lexHandlers (handlers : list Handler)
  (this : Generator) : Generator :=
  {| _grammar := _grammar this; _tokens := _tokens this;
     _terminalsMap := _terminalsMap this;
     _productionHandlers := _productionHandlers this;
     _lexHandlers := handlers; slots := slots this |}.

Definition with_slots (registry : gmap string string)
  (this : Generator) : Generator :=
  {| _grammar := _grammar this; _tokens := _tokens this;
     _terminalsMap := _terminalsMap this;
     _productionHandlers := _productionHandlers this;
     _lexHandlers := _lexHandlers this; slots := registry |}.

(** Modelled from the spec: [writeData] of the base generator is missing;
    the named-slot registry maps a slot name to the text written last. *)
Definition writeData (slot text : string) : Gen unit := λ this,
  Ok () (with_slots (<[slot := text]> (slots this)) this).

(** [this._productionHandlers.push(h)] *)
Definition push_productionHandler (h : Handler) : Gen unit := λ this,
  Ok () (with_productionHandlers (_productionHandlers this ++ [h]) this).

(** [this._lexHandlers.push(h)] *)
Definition push_lexHandler (h : Handler) : Gen unit := λ this,
  Ok () (with_lexHandlers (_lexHandlers this ++ [h]) this).

(** [this._terminalsMap[token] = index] *)
Definition set_terminal (token : string) (index : nat) : Gen unit := λ this,
  Ok () (with_terminalsMap (<[token := index]> (_terminalsMap this)) this).

(** Modelled from the spec: [getSemanticActionCode] of the base generator
    is missing; it gives the raw semantic action of the production, if the
    production has one. *)
Definition getSemanticActionCode (production : Production) : option string :=
  getRawSemanticAction production.

(** *** Placeholder rewriting *)

Definition is_empty_literal (token : string) : bool :=
  bool_decide (token = "%empty") || bool_decide (token = "nullptr")
  || bool_decide (token = "NULL").

(** [token.replace(/^Q|Q$/g, '')] *)
Definition strip_quotes (token : string) : string :=
  replace_all re_outer_quote (λ _ _, "") token.

(** The callback of [_scopeVars]. Group 1 takes part in every match of
    [tokenRe], so the callback is always given a token. *)
Definition scopeReturn (terminalsMap : gmap string nat)
  (_match : string) (token : option string) : string :=
  match token with
  | Some token =>
      let token := strip_quotes token in
      if is_empty_literal token then "return TokenType::__EMPTY;"
      else
        match terminalsMap !! token with
        | Some code => "return TokenType::TOKEN_TYPE_" +:+ pretty code +:+ ";"
        | None => "return TokenType::" +:+ token +:+ ";"
        end
  | None => _match
  end.

(** The two renamings [_scopeVars] makes first. *)
Definition scopeNames (code : string) : string :=
  replace_all re_result_var (λ _ _, "auto __")
    (replace_all re_yytext (λ _ _, "tokenizer.yytext") code).

Definition _scopeVars (terminalsMap : gmap string nat) (code : string)
  : string :=
  replace_all tokenRe (scopeReturn terminalsMap) (scopeNames code).

Definition _actionFromHandler (terminalsMap : gmap string nat)
  (handler : string) : string :=
  let handler :=
    if test re_ends_with_semicolon handler then handler else handler +:+ ";" in
  let action := trim (_scopeVars terminalsMap handler) in
  match action with
  | "" => "return nullptr;"
  | _ => action
  end.

(** *** Production handlers *)

Record ParamInfo : Type := {
  isUsed : bool;
  isToken : bool
}.

Definition param_name (index : nat) : string := "_" +:+ pretty (index + 1).

Definition _getParamsInfo (grammar : Grammar) (production : Production)
  (action : string) : list (string * ParamInfo) :=
  if isEpsilon production then []
  else
    foldl
      (λ info '(index, symbol),
         let name := param_name index in
         obj_set name
           {| isUsed := includes action name;
              isToken := isTokenSymbol grammar symbol |} info)
      [] (imap (λ index symbol, (index, symbol)) (getRHS production)).

Definition _generateHandlerPrologue (production : Production)
  (action : string) (argsInfo : list (string * ParamInfo)) : string :=
  let argsPrologue :=
    foldl
      (λ argsPrologue '(name, info),
         if isToken info || derivesPropagatingToken production then
           argsPrologue ++
             [if isUsed info then "auto " +:+ name +:+ " = POP_T();"
              else "parser.tokensStack.pop_back();"]
         else
           argsPrologue ++
             [if isUsed info then "auto " +:+ name +:+ " = POP_V();"
              else "parser.valuesStack.pop_back();"])
      [] (reverse argsInfo) in
  "// Semantic action prologue." +:+ nl +:+
  join nl argsPrologue +:+ nl +:+ nl +:+
  action.

Definition _generateHandlerEpilogue (production : Production)
  (action : string) : string :=
  let pushResult :=
    if derivesPropagatingToken production then "PUSH_TR" else "PUSH_VR" in
  action +:+ nl +:+ nl +:+ " // Semantic action epilogue." +:+ nl +:+
  pushResult +:+ "();" +:+ nl.

Definition buildSemanticAction (production : Production)
  : Gen (option string) :=
  match getSemanticActionCode production with
  | None | Some "" => mret None
  | Some action =>
      this ← get_this;
      let action := _actionFromHandler (_terminalsMap this) action in
      let argsInfo := _getParamsInfo (_grammar this) production action in
      let action := _generateHandlerPrologue production action argsInfo in
      let action := _generateHandlerEpilogue production action in
      push_productionHandler {| args := "yyparse& parser"; action := action |};;
      this ← get_this;
      mret (Some (dq +:+ "_handler" +:+
                  pretty (length (_productionHandlers this)) +:+ dq))
  end.

(** Modelled from the spec: [generateRawProductionsData] of the base
    generator is missing; it gives, for each production in declaration
    order, the right-hand length, the left-hand identifier and, where
    [buildSemanticAction] gives one, the handler reference. *)
Definition rawProductionData (production : Production) : Gen (list string) :=
  handler ← buildSemanticAction production;
  mret ([pretty (if isEpsilon production then 0
                 else length (getRHS production));
         getLHS production] ++ option_list handler).

Definition generateRawProductionsData : Gen (list (list string)) :=
  this ← get_this;
  mapM rawProductionData (getProductions (_grammar this)).

Definition generateProductionsData : Gen (list string) :=
  this ← get_this;
  writeData "PRODUCTIONS_COUNT"
    (pretty (length (getProductions (_grammar this))));;
  raw ← generateRawProductionsData;
  mret
    (imap
       (λ index data,
          "{" +:+
          join ", " (array_set 2 ("&_handler" +:+ pretty (index + 1)) data)
          +:+ "}")
       raw).

Definition generateProductions : Gen unit :=
  data ← generateProductionsData;
  writeData "PRODUCTIONS" ("{{" +:+ join ("," +:+ nl) data +:+ "}}").

Definition _generateHandlers (handlers : list Handler) (name returnType : string)
  : list string :=
  imap
    (λ index h,
       returnType +:+ " " +:+ name +:+ pretty (index + 1) +:+
       "(" +:+ args h +:+ ") {" +:+ nl +:+ action h +:+ nl +:+ "}")
    handlers.

Definition generateProductionHandlers : Gen unit :=
  this ← get_this;
  let handlers := _generateHandlers (_productionHandlers this) "_handler" "void" in
  writeData "PRODUCTION_HANDLERS" (join (nl +:+ nl) handlers).

Definition generateLexHandlers : Gen unit :=
  this ← get_this;
  let handlers :=
    _generateHandlers (_lexHandlers this) "_lexRule" "inline TokenType" in
  writeData "LEX_RULE_HANDLERS" (join (nl +:+ nl) handlers).

Section Trait.

(** What the host gives: [Number(key)] as a template literal writes it, and
    [colors.bold]. *)
Variable js_Number : string → string.
Variable bold : string → string.

(** *** Maps of the target language *)

Definition _mapKey (key : string) (kt : keyType) : string :=
  match kt with
  | KeyString => dq +:+ key +:+ dq
  | KeyNumber => js_Number key
  | KeyRaw => key
  end.

Definition _mapValue (value : jsval) (vt : valueType) : string :=
  match value with
  | VArr xs => "{" +:+ join ", " (pretty <$> xs) +:+ "}"
  | _ =>
      match vt with
      | ValString => dq +:+ to_text value +:+ dq
      | ValNumber => js_Number (to_text value)
      | ValRaw => to_text value
      end
  end.

Definition _toCppMap (object : list (string * jsval)) (typeName : string)
  (kt : keyType) (vt : valueType) : string :=
  let result :=
    foldl
      (λ result '(k, value),
         let key := replace_all re_double_quote (λ _ _, "\" +:+ dq) k in
         result ++
           ["{" +:+ _mapKey key kt +:+ ", " +:+ _mapValue value vt +:+ "}"])
      [] object in
  typeName +:+ " {" +:+ join ", " result +:+ "}".

(** *** The parsing table *)

Definition is_text (v : jsval) (t : string) : bool :=
  match v with
  | VStr s => bool_decide (s = t)
  | _ => false
  end.

(** What [_buildTable] writes over one entry of a row. *)
Definition encodeEntry (entry : jsval) : string :=
  if bool_decide (first_char entry = Some "s"%char) then
    "{TE::Shift, " +:+ slice1_val entry +:+ "}"
  else if bool_decide (first_char entry = Some "r"%char) then
    "{TE::Reduce, " +:+ slice1_val entry +:+ "}"
  else if is_text entry "acc" then "{TE::Accept, 0}"
  else "{TE::Transit, " +:+ to_text entry +:+ "}".

(** The [forEach] over the keys of a row. *)
Definition encodeRow (row : Row) : Row :=
  foldl (λ row '(key, entry), obj_set key (VStr (encodeEntry entry)) row)
    row row.

Definition _buildTable (table : list (string * nat)) (store : list Row)
  : Gen (string * list Row) :=
  let '(entries, store) :=
    foldl
      (λ '(entries, store) '(state, place),
         let row := encodeRow (store !!! place) in
         let store := <[place := row]> store in
         (entries ++ [_toCppMap row "Row" KeyNumber ValRaw], store))
      ([], store) table in
  writeData "ROWS_COUNT" (pretty (length entries));;
  mret ("{" +:+ nl +:+ "    " +:+
        join ("," +:+ nl +:+ "    ") entries +:+ nl +:+ "}", store).

(** *** Lexical rules *)

(** The function [generateLexRules] maps over the rules. *)
Definition generateLexRule (lexRule : LexRule) : Gen string :=
  let handler := getRawHandler lexRule in
  let handler :=
    if includes handler "return" then handler else "return " +:+ handler in
  this ← get_this;
  let action := _actionFromHandler (_terminalsMap this) handler in
  push_lexHandler
    {| args := "const Tokenizer& tokenizer, const std::string& yytext";
       action := action |};;
  this ← get_this;
  mret ("{std::regex(R" +:+ dq +:+ "(" +:+ getRawMatcher lexRule +:+
        ")" +:+ dq +:+ "), " +:+
        "&_lexRule" +:+ pretty (length (_lexHandlers this)) +:+ "}").

Definition generateLexRules : Gen unit :=
  this ← get_this;
  lexRules ← mapM generateLexRule (getRules (getLexGrammar (_grammar this)));
  writeData "LEX_RULES_COUNT" (pretty (length lexRules));;
  writeData "LEX_RULES"
    ("{{" +:+ nl +:+ "  " +:+ join ("," +:+ nl +:+ "  ") lexRules +:+ nl +:+
     "}}").

Definition generateLexRulesByStartConditions : Gen unit :=
  this ← get_this;
  let lexGrammar := getLexGrammar (_grammar this) in
  let lexRulesByConditions := getRulesByStartConditions lexGrammar in
  let tokenizerStates := obj_keys lexRulesByConditions in
  writeData "TOKENIZER_STATES" (join ("," +:+ nl +:+ "  ") tokenizerStates);;
  let result :=
    foldl
      (λ result '(condition, rules),
         obj_set ("TokenizerState::" +:+ condition)
           (VArr (getRuleIndex lexGrammar <$> rules)) result)
      [] lexRulesByConditions in
  writeData "LEX_RULES_BY_START_CONDITIONS"
    (_toCppMap result "" KeyRaw ValString).

(** *** Token types *)

(** The function [generateTokenTypes] maps over the terminals. *)
Definition generateTokenType (terminal : string * nat) : Gen string :=
  let '(token, index) := terminal in
  this ← get_this;
  if bool_decide (token ∈ _tokensMap (_grammar this)) then
    mret (token +:+ " = " +:+ pretty index)
  else
    set_terminal token index;;
    if bool_decide (token = "$") then mret ("__EOF = " +:+ pretty index)
    else mret ("TOKEN_TYPE_" +:+ pretty index +:+ " = " +:+ pretty index).

Definition generateTokenTypes : Gen unit :=
  this ← get_this;
  tokenTypes ← mapM generateTokenType (_tokens this);
  writeData "TOKEN_TYPES" (join ("," +:+ nl +:+ "  ") tokenTypes).

(** *** Module include *)

Definition value_type_message : string :=
  nl +:+ "C++ plugin should provide module include and define at least " +:+
  "the " +:+ bold "Value" +:+ " type. Example:" +:+ nl +:+ nl +:+
  bold ("using Value = <...>;" +:+ nl).

Definition generateModuleInclude : Gen unit :=
  this ← get_this;
  let moduleInclude := getModuleInclude (_grammar this) in
  let hasValueType := test re_value_type moduleInclude in
  if negb hasValueType then throw value_type_message
  else
    let onParseBegin :=
      if includes moduleInclude "void onParseBegin" then "onParseBegin(str);"
      else "" in
    let onParseEnd :=
      if includes moduleInclude "void onParseEnd" then "onParseEnd(result);"
      else "" in
    writeData "ON_PARSE_BEGIN_CALL" onParseBegin;;
    writeData "ON_PARSE_END_CALL" onParseEnd;;
    writeData "MODULE_INCLUDE" moduleInclude.

End Trait.

(** ** Notions the properties are stated with *)

(** [m'] is [m] moved over the text [w]. *)
Definition moved (m : mstate) (w : string) (m' : mstate) : Prop :=
  rest m = w +:+ rest m'
  ∧ consumed m' = consumed m + String.length w
  ∧ group1 m' = group1 m.

(** The matcher's position after it has passed over the text [w]. *)
Fixpoint run_over (w : string) (m : mstate) : mstate :=
  match w with
  | "" => m
  | String c w' => run_over w' (step c (drop_str 1 (rest m)) m)
  end.

(** A match of [tokenRe] is the word [return], white space, a value that is
    not empty and holds no semicolon, and a semicolon; group 1 is the
    value. *)
Definition return_statement (matched : string) (capture : option string)
  (w value : string) : Prop :=
  matched = "return" +:+ w +:+ value +:+ ";"
  ∧ capture = Some value
  ∧ w ≠ "" ∧ all_str js_space w = true
  ∧ value ≠ "" ∧ all_str not_semicolon value = true.

(** The word [return] begins at none of the first [n] places of [s]. *)
Fixpoint no_return_before (n : nat) (s : string) : bool :=
  match n with
  | 0 => true
  | S n' =>
      negb (startsWith "return" s) &&
      match s with
      | "" => true
      | String _ s' => no_return_before n' s'
      end
  end.

(** [code] is [pre], a return statement with the white space [w] and the
    value [value], and [post]; nothing in [pre] reads [return], and the
    value begins with a character that is no white space. *)
Definition first_return_statement (code pre w value post : string) : Prop :=
  code = pre +:+ "return" +:+ w +:+ value +:+ ";" +:+ post
  ∧ no_return_before (String.length pre) code = true
  ∧ w ≠ "" ∧ all_str js_space w = true
  ∧ (∀ c, char0 value = Some c → js_space c = false)
  ∧ value ≠ "" ∧ all_str not_semicolon value = true.

(** Stripping one leading and one trailing quote character, as the spec
    words what [strip_quotes] does. *)
Definition strip_leading_quote (s : string) : string :=
  match s with
  | "" => ""
  | String c s' => if is_quote c then s' else s
  end.

Fixpoint strip_trailing_quote (s : string) : string :=
  match s with
  | "" => ""
  | String c s' =>
      match s' with
      | "" => if is_quote c then "" else s
      | String _ _ => String c (strip_trailing_quote s')
      end
  end.

(** The enumeration member [generateTokenTypes] writes for a terminal, and
    the reverse map it leaves behind. *)
Definition tokenTypeMember (grammar : Grammar) (terminal : string * nat)
  : string :=
  let '(token, index) := terminal in
  if bool_decide (token ∈ _tokensMap grammar) then
    token +:+ " = " +:+ pretty index
  else if bool_decide (token = "$") then "__EOF = " +:+ pretty index
  else "TOKEN_TYPE_" +:+ pretty index +:+ " = " +:+ pretty index.

Definition recordTerminals (grammar : Grammar)
  (terminalsMap : gmap string nat) (tokens : list (string * nat))
  : gmap string nat :=
  foldl
    (λ terminalsMap '(token, index),
       if bool_decide (token ∈ _tokensMap grammar) then terminalsMap
       else <[token := index]> terminalsMap)
    terminalsMap tokens.

(** The handler [generateLexRules] stores for a rule, and the entry it
    writes for the rule when the handler is the [n]-th of the list. *)
Definition lexHandlerOf (terminalsMap : gmap string nat) (lexRule : LexRule)
  : Handler :=
  {| args := "const Tokenizer& tokenizer, const std::string& yytext";
     action :=
       _actionFromHandler terminalsMap
         (if includes (getRawHandler lexRule) "return"
          then getRawHandler lexRule
          else "return " +:+ getRawHandler lexRule) |}.

Definition lexRuleEntry (n : nat) (lexRule : LexRule) : string :=
  "{std::regex(R" +:+ dq +:+ "(" +:+ getRawMatcher lexRule +:+ ")" +:+ dq +:+
  "), " +:+ "&_lexRule" +:+ pretty n +:+ "}".

(** The statements of a generated handler that move the parsing stacks: a
    pop of one slot, binding a local variable or discarding the slot, and
    the push of the result. *)
Inductive stack : Type := TokensStack | ValuesStack.

Definition pop_statement (st : stack) (bound : option string) : string :=
  match st, bound with
  | TokensStack, Some name => "auto " +:+ name +:+ " = POP_T();"
  | TokensStack, None => "parser.tokensStack.pop_back();"
  | ValuesStack, Some name => "auto " +:+ name +:+ " = POP_V();"
  | ValuesStack, None => "parser.valuesStack.pop_back();"
  end.

Definition push_statement (st : stack) : string :=
  match st with
  | TokensStack => "PUSH_TR();"
  | ValuesStack => "PUSH_VR();"
  end.

(** A grammar that has a module include and nothing else. *)
Definition grammar_without_Value (moduleInclude : string) : Grammar :=
  {| getProductions := []; isTokenSymbol := λ _, false; _tokensMap := ∅;
     getModuleInclude := moduleInclude;
     getLexGrammar :=
       {| getRules := []; getRulesByStartConditions := [];
          getRuleIndex := λ _, 0 |} |}.

(** Whether [buildSemanticAction] finds a semantic action, the handler it
    stores for the production, and the raw data of the productions when [n]
    handlers are stored already. *)
Definition has_action (production : Production) : bool :=
  match getSemanticActionCode production with
  | None | Some "" => false
  | Some _ => true
  end.

Definition productionHandlerOf (this : Generator) (production : Production)
  : Handler :=
  let body :=
    _actionFromHandler (_terminalsMap this)
      (default "" (getSemanticActionCode production)) in
  {| args := "yyparse& parser";
     action :=
       _generateHandlerEpilogue production
         (_generateHandlerPrologue production body
            (_getParamsInfo (_grammar this) production body)) |}.

Fixpoint rawDataFrom (n : nat) (productions : list Production)
  : list (list string) :=
  match productions with
  | [] => []
  | production :: rest =>
      let data :=
        [pretty (if isEpsilon production then 0
                 else length (getRHS production));
         getLHS production] in
      if has_action production then
        (data ++ [dq +:+ "_handler" +:+ pretty (n + 1) +:+ dq])
        :: rawDataFrom (n + 1) rest
      else data :: rawDataFrom n rest
  end.

(** The four kinds of a cell of the parsing table, and the decoding of a
    raw directive into a kind and an operand in the words of the spec: [s]
    and a number is a shift, [r] and a number a reduce, [acc] the accept with
    operand 0, anything else a transit to the value itself. *)
Inductive Kind : Type := Shift | Reduce | Accept | Transit.

Definition kind_name (k : Kind) : string :=
  match k with
  | Shift => "Shift"
  | Reduce => "Reduce"
  | Accept => "Accept"
  | Transit => "Transit"
  end.

Definition decode_directive (directive : string) : Kind * string :=
  match directive with
  | String "s"%char operand => (Shift, operand)
  | String "r"%char operand => (Reduce, operand)
  | _ =>
      if bool_decide (directive = "acc") then (Accept, "0")
      else (Transit, directive)
  end.

(** The raw directive of a kind and an operand. *)
Definition encode_directive (tagged : Kind * string) : string :=
  match tagged.1 with
  | Shift => "s" +:+ tagged.2
  | Reduce => "r" +:+ tagged.2
  | Accept => "acc"
  | Transit => tagged.2
  end.

(** The text of a tagged pair in the target language, and its reading. *)
Definition cell (tagged : Kind * string) : string :=
  "{TE::" +:+ kind_name tagged.1 +:+ ", " +:+ tagged.2 +:+ "}".

Definition drop_last (s : string) : string :=
  take_str (String.length s - 1) s.

Definition read_cell_as (k : Kind) (text : string) : option (Kind * string) :=
  let opening := "{TE::" +:+ kind_name k +:+ ", " in
  if startsWith opening text
  then Some (k, drop_last (drop_str (String.length opening) text))
  else None.

Definition read_cell (text : string) : option (Kind * string) :=
  match read_cell_as Shift text with
  | Some tagged => Some tagged
  | None =>
      match read_cell_as Reduce text with
      | Some tagged => Some tagged
      | None =>
          match read_cell_as Accept text with
          | Some tagged => Some tagged
          | None => read_cell_as Transit text
          end
      end
  end.

(** A row with every entry encoded. *)
Definition encodedRow (row : Row) : Row :=
  (λ entry, (entry.1, VStr (encodeEntry entry.2))) <$> row.

(** ** Concrete inputs *)

(** The grammar [S → A], [A → 'a'] with the terminals [$] (code 0) and [a]
    (code 1), neither declared as a named token; only the second production
    has a semantic action. *)
Definition production_S : Production :=
  {| getLHS := "S"; getRHS := ["A"]; isEpsilon := false;
     derivesPropagatingToken := false; getRawSemanticAction := None |}.

Definition production_A : Production :=
  {| getLHS := "A"; getRHS := ["'a'"]; isEpsilon := false;
     derivesPropagatingToken := true;
     getRawSemanticAction := Some "__ = _1" |}.

Definition lexRule_a : LexRule :=
  {| getRawMatcher := "a"; getRawHandler := "'a'" |}.

Definition lexRule_space : LexRule :=
  {| getRawMatcher := "\s+"; getRawHandler := "/* skip */" |}.

Definition lexRule_number : LexRule :=
  {| getRawMatcher := "\d+"; getRawHandler := "return NUMBER;" |}.

(** A lexical grammar whose [getRuleIndex] is the place of the rule in
    [getRules], counted from 0 as [Array.prototype.indexOf] counts. *)
Definition example_lexGrammar : LexGrammar :=
  {| getRules := [lexRule_a; lexRule_space; lexRule_number];
     getRulesByStartConditions :=
       [("INITIAL", [lexRule_a; lexRule_space; lexRule_number])];
     getRuleIndex :=
       λ rule,
         if bool_decide (getRawMatcher rule = "a") then 0
         else if bool_decide (getRawMatcher rule = "\s+") then 1
         else 2 |}.

Definition example_grammar : Grammar :=
  {| getProductions := [production_S; production_A];
     isTokenSymbol := λ symbol, bool_decide (symbol = "'a'");
     _tokensMap := ∅;
     getModuleInclude := "using Value = int;";
     getLexGrammar := example_lexGrammar |}.

Definition example_generator : Generator :=
  {| _grammar := example_grammar;
     _tokens := [("$", 0); ("a", 1)];
     _terminalsMap := ∅;
     _productionHandlers := [];
     _lexHandlers := [];
     slots := ∅ |}.

(** A key of a map of the target language, its double quotes escaped. *)
Definition escapeKey (k : string) : string :=
  replace_all re_double_quote (λ _ _, "\" +:+ dq) k.

(** One start condition in the table of [generateLexRulesByStartConditions]. *)
Definition startConditionEntry (lexGrammar : LexGrammar)
  (entry : string * list LexRule) : string :=
  "{" +:+ escapeKey ("TokenizerState::" +:+ entry.1) +:+ ", " +:+
  ("{" +:+ join ", " (pretty <$> (getRuleIndex lexGrammar <$> entry.2)) +:+ "}")
  +:+ "}".

Definition generator_without_Value : Generator :=
  {| _grammar := grammar_without_Value "typedef int Result; void onParseBegin();";
     _tokens := []; _terminalsMap := ∅; _productionHandlers := [];
     _lexHandlers := []; slots := {["TABLE" := "{}"]} |}.

(** A parsing table of two states, each with its own row. *)
Definition example_rows : list Row :=
  [[("1", VStr "s3"); ("2", VNum 5)]; [("0", VStr "acc"); ("4", VStr "r2")]].

Definition example_table : list (string * nat) := [("0", 0); ("1", 1)].

(** The same store with both states holding the first row. *)
Definition shared_table : list (string * nat) := [("0", 0); ("1", 0)].

(** [L → L ',' E] with an action that refers to the first and the third
    position. *)
Definition production_L : Production :=
  {| getLHS := "L"; getRHS := ["L"; "','"; "E"]; isEpsilon := false;
     derivesPropagatingToken := false;
     getRawSemanticAction := Some "__ = _1 + _3" |}.

Definition list_grammar : Grammar :=
  {| getProductions := [production_L];
     isTokenSymbol := λ symbol, bool_decide (symbol = "','");
     _tokensMap := ∅;
     getModuleInclude := "using Value = int;";
     getLexGrammar := example_lexGrammar |}.

Definition list_generator : Generator :=
  {| _grammar := list_grammar;
     _tokens := [("$", 0); (",", 1)];
     _terminalsMap := ∅;
     _productionHandlers := [];
     _lexHandlers := [];
     slots := ∅ |}.

(** ** Further operations of the trait *)

Section TraitTables.

(** What the host and the grammar give: [Number(key)] as a template literal
    writes it, and the augmented production. *)
Variable js_Number : string → string.
Variable getAugmentedProduction : Grammar → Production.

(** [_toCppMap(this._tokens, 'string', 'number')]: the first text is the
    type name and the second the key type; the value type is the default
    one. *)
Definition generateTokensTable : Gen unit :=
  this ← get_this;
  writeData "TOKENS"
    (_toCppMap js_Number
       ((λ terminal, (terminal.1, VNum terminal.2)) <$> _tokens this)
       "string" KeyNumber ValString).


End TraitTables.

(** ** Further notions *)

(** The text holds the character. *)
Fixpoint has_char (c : ascii) (s : string) : bool :=
  match s with
  | "" => false
  | String a s' => Ascii.eqb a c || has_char c s'
  end.

Fixpoint last_char (s : string) : option ascii :=
  match s with
  | "" => None
  | String c s' =>
      match s' with
      | "" => Some c
      | String _ _ => last_char s'
      end
  end.

(** The character before the place behind [pre], [b] being the character
    before [pre]. *)
Fixpoint before_after (b : option ascii) (pre : string) : option ascii :=
  match pre with
  | "" => b
  | String c pre' => before_after (Some c) pre'
  end.

(** What [_toCppMap] writes for one character of a key, and the reading
    back of an escaped key: the backslash before a double quote is
    dropped. *)
Definition escapeChar (c : ascii) : string :=
  if Ascii.eqb "034"%char c then "\" +:+ dq else String c "".

Fixpoint unescapeKey (s : string) : string :=
  match s with
  | "" => ""
  | String c s' =>
      match s' with
      | "" => String c ""
      | String c' s'' =>
          if Ascii.eqb c "\"%char && Ascii.eqb c' "034"%char
          then String c' (unescapeKey s'')
          else String c (unescapeKey s')
      end
  end.

(** A text declares the type [Value], as [generateModuleInclude] looks for
    it: one of the words [using], [class] and [struct] that begins at a word
    boundary, white space, and the word [Value] that ends at a word
    boundary; or the word [typedef] that begins at a word boundary, white
    space, a word, white space, and [Value] with anything behind it. *)
Definition declares_Value (text : string) : Prop :=
  (∃ pre kw w post,
     text = pre +:+ kw +:+ w +:+ "Value" +:+ post
     ∧ kw ∈ ["using"; "class"; "struct"]
     ∧ word_opt (last_char pre) = false
     ∧ w ≠ "" ∧ all_str js_space w = true
     ∧ word_opt (char0 post) = false)
  ∨ (∃ pre w1 name w2 post,
       text = pre +:+ "typedef" +:+ w1 +:+ name +:+ w2 +:+ "Value" +:+ post
       ∧ word_opt (last_char pre) = false
       ∧ w1 ≠ "" ∧ all_str js_space w1 = true
       ∧ name ≠ "" ∧ all_str js_word name = true
       ∧ w2 ≠ "" ∧ all_str js_space w2 = true).


(** The declaration [_generateHandlers] writes for the [n]-th handler. *)
Definition handlerDeclaration (returnType name : string) (n : nat)
  (h : Handler) : string :=
  returnType +:+ " " +:+ name +:+ pretty n +:+
  "(" +:+ args h +:+ ") {" +:+ nl +:+ action h +:+ nl +:+ "}".

(** ** Further concrete inputs *)

(** An epsilon production: its right-hand side is the epsilon symbol. *)
Definition production_E : Production :=
  {| getLHS := "E"; getRHS := ["ε"]; isEpsilon := true;
     derivesPropagatingToken := false;
     getRawSemanticAction := Some "__ = nullptr" |}.

(** A production with ten right-hand symbols whose action refers to the
    tenth position only. *)
Definition production_T : Production :=
  {| getLHS := "T";
     getRHS := ["a"; "b"; "c"; "d"; "e"; "f"; "g"; "h"; "i"; "j"];
     isEpsilon := false; derivesPropagatingToken := false;
     getRawSemanticAction := Some "__ = _10" |}.

(** * Properties *)

(** ** Strings *)

Lemma str_app_nil_l (s : string) : "" +:+ s = s.
Proof. reflexivity. Qed.

Lemma str_app_cons (c : ascii) (s t : string) :
  String c s +:+ t = String c (s +:+ t).
Proof. reflexivity. Qed.

Lemma str_app_nil_r (s : string) : s +:+ "" = s.
Proof. induction s as [|c s IH]; [done|]. by rewrite str_app_cons, IH. Qed.

Lemma str_app_assoc (s t u : string) : (s +:+ t) +:+ u = s +:+ t +:+ u.
Proof. induction s as [|c s IH]; [done|]. by rewrite !str_app_cons, IH. Qed.

Lemma str_app_length (s t : string) :
  String.length (s +:+ t) = String.length s + String.length t.
Proof. induction s as [|c s IH]; [done|]. rewrite str_app_cons. simpl. lia. Qed.

Lemma take_drop_str (n : nat) (s : string) : take_str n s +:+ drop_str n s = s.
Proof.
  revert s. induction n as [|n IH]; intros [|c s]; simpl; try done.
  by rewrite str_app_cons, IH.
Qed.

Lemma take_str_app (s t : string) : take_str (String.length s) (s +:+ t) = s.
Proof.
  induction s as [|c s IH]; [by destruct t|].
  rewrite str_app_cons. simpl. by rewrite IH.
Qed.

Lemma drop_str_app (s t : string) : drop_str (String.length s) (s +:+ t) = t.
Proof. induction s as [|c s IH]; [done|]. by rewrite str_app_cons. Qed.

Lemma drop_str_0 (s : string) : drop_str 0 s = s.
Proof. by destruct s. Qed.

Lemma startsWith_app (p s : string) : startsWith p (p +:+ s) = true.
Proof.
  induction p as [|c p IH]; [done|].
  rewrite str_app_cons. simpl. by rewrite Ascii.eqb_refl, IH.
Qed.

Lemma startsWith_inv (p s : string) :
  startsWith p s = true → ∃ t, s = p +:+ t.
Proof.
  revert s. induction p as [|a p IH]; intros s H.
  - by exists s.
  - destruct s as [|b s]; [done|]. simpl in H.
    apply andb_true_iff in H as [Hab H]. apply Ascii.eqb_eq in Hab as ->.
    destruct (IH _ H) as [t ->]. by exists t.
Qed.

Lemma includes_startsWith (s p : string) :
  startsWith p s = true → includes s p = true.
Proof. intros H. destruct s; simpl in *; by rewrite H. Qed.

Lemma includes_app_r (s t p : string) :
  includes t p = true → includes (s +:+ t) p = true.
Proof.
  intros H. induction s as [|c s IH]; [done|].
  rewrite str_app_cons. simpl. rewrite IH. apply orb_true_r.
Qed.

Lemma includes_middle (s p t : string) : includes (s +:+ p +:+ t) p = true.
Proof. apply includes_app_r, includes_startsWith, startsWith_app. Qed.

Lemma includes_occurrences (s p : string) :
  includes s p = false ↔ occurrences p s = 0.
Proof.
  induction s as [|c s IH]; simpl.
  - by destruct (startsWith p "").
  - destruct (startsWith p (String c s)); simpl; [done|apply IH].
Qed.

Lemma concat_str_app (xs ys : list string) :
  concat_str (xs ++ ys) = concat_str xs +:+ concat_str ys.
Proof.
  induction xs as [|x xs IH]; [done|]. simpl. by rewrite IH, str_app_assoc.
Qed.

Lemma foldl_snoc {A B} (f : A → B) (init : list B) (l : list A) :
  foldl (λ acc x, acc ++ [f x]) init l = init ++ (f <$> l).
Proof.
  revert init. induction l as [|x l IH]; intros init; simpl.
  - by rewrite app_nil_r.
  - by rewrite IH, <-app_assoc.
Qed.

(** ** The matcher *)

Lemma moved_refl (m : mstate) : moved m "" m.
Proof. unfold moved. simpl. auto with lia. Qed.

Lemma moved_trans (m1 m2 m3 : mstate) (w1 w2 : string) :
  moved m1 w1 m2 → moved m2 w2 m3 → moved m1 (w1 +:+ w2) m3.
Proof.
  intros (Hr1 & Hc1 & Hg1) (Hr2 & Hc2 & Hg2). unfold moved.
  rewrite Hr1, Hr2, str_app_assoc, str_app_length. split_and!; [done|lia|congruence].
Qed.

Lemma moved_step (m : mstate) (c : ascii) (s' : string) :
  rest m = String c s' → moved m (String c "") (step c s' m).
Proof. intros H. unfold moved. simpl. rewrite H. auto with lia. Qed.

Lemma lit_inv (t : string) (m : mstate) (k : mstate → option mstate)
  (r : mstate) :
  lit t m k = Some r → ∃ m', moved m t m' ∧ k m' = Some r.
Proof.
  revert m. induction t as [|a t IH]; intros m H; simpl in H.
  - exists m. split; [apply moved_refl|done].
  - destruct (rest m) as [|c s'] eqn:Hrest; [done|].
    destruct (Ascii.eqb a c) eqn:Hac; [|done]. apply Ascii.eqb_eq in Hac as ->.
    destruct (IH _ H) as (m' & Hm & Hk). exists m'. split; [|done].
    apply (moved_trans _ _ _ (String c "") t (moved_step m c s' Hrest) Hm).
Qed.

Lemma one_inv (p : ascii → bool) (m : mstate) (k : mstate → option mstate)
  (r : mstate) :
  one p m k = Some r →
  ∃ c m', p c = true ∧ moved m (String c "") m' ∧ k m' = Some r.
Proof.
  unfold one. intros H. destruct (rest m) as [|c s'] eqn:Hrest; [done|].
  destruct (p c) eqn:Hp; [|done].
  exists c, (step c s' m). split_and!; [done| |done]. by apply moved_step.
Qed.

Lemma star_greedy_inv (p : ascii → bool) (s : string) (m : mstate)
  (k : mstate → option mstate) (r : mstate) :
  rest m = s → star_greedy p s m k = Some r →
  ∃ w m', all_str p w = true ∧ moved m w m' ∧ k m' = Some r.
Proof.
  revert m. induction s as [|c s' IH]; intros m Hrest H; simpl in H.
  - exists "", m. split_and!; [done|apply moved_refl|done].
  - destruct (p c) eqn:Hp.
    + destruct (star_greedy p s' (step c s' m) k) as [r'|] eqn:Hgo.
      * inversion H; subst r'. destruct (IH (step c s' m) eq_refl Hgo) as (w & m' & Hw & Hm & Hk).
        exists (String c w), m'. split_and!; [simpl; by rewrite Hp| |done].
        apply (moved_trans _ _ _ (String c "") w (moved_step m c s' Hrest) Hm).
      * exists "", m. split_and!; [done|apply moved_refl|done].
    + exists "", m. split_and!; [done|apply moved_refl|done].
Qed.

Lemma star_lazy_inv (p : ascii → bool) (s : string) (m : mstate)
  (k : mstate → option mstate) (r : mstate) :
  rest m = s → star_lazy p s m k = Some r →
  ∃ w m', all_str p w = true ∧ moved m w m' ∧ k m' = Some r.
Proof.
  revert m. induction s as [|c s' IH]; intros m Hrest H; simpl in H.
  - destruct (k m) eqn:Hk; [|done]. inversion H; subst.
    exists "", m. split_and!; [done|apply moved_refl|done].
  - destruct (k m) eqn:Hk.
    + inversion H; subst. exists "", m. split_and!; [done|apply moved_refl|done].
    + destruct (p c) eqn:Hp; [|done].
      destruct (IH (step c s' m) eq_refl H) as (w & m' & Hw & Hm & Hk').
      exists (String c w), m'. split_and!; [simpl; by rewrite Hp| |done].
      apply (moved_trans _ _ _ (String c "") w (moved_step m c s' Hrest) Hm).
Qed.

(** The walk of [replace_all] and its pieces. *)

Lemma replace_go_pieces (r : regex) (cb : string → option string → string)
  (skip : nat) (b : option ascii) (s : string) :
  replace_go r cb skip b s
  = concat_str (piece_output cb <$> pieces_go r skip b s).
Proof.
  revert skip b. induction s as [|c s IH]; intros skip b.
  - destruct skip; simpl; [|done]. by destruct (match_at r b "").
  - destruct skip as [|n]; simpl; [|apply IH].
    destruct (match_at r b (String c s)) as [m|]; simpl.
    + f_equal. destruct (consumed m); simpl; by rewrite IH.
    + by rewrite IH.
Qed.

Lemma pieces_go_source (r : regex) (skip : nat) (b : option ascii) (s : string) :
  concat_str (piece_source <$> pieces_go r skip b s) = drop_str skip s.
Proof.
  revert skip b. induction s as [|c s IH]; intros skip b.
  - destruct skip; simpl; [|done].
    destruct (match_at r b "") as [m|]; simpl; [|done]. by destruct (consumed m).
  - destruct skip as [|n]; simpl; [|apply IH].
    destruct (match_at r b (String c s)) as [m|]; simpl.
    + destruct (consumed m) as [|n]; simpl; rewrite IH.
      * by rewrite drop_str_0.
      * by rewrite str_app_cons, take_drop_str.
    + by rewrite IH, drop_str_0.
Qed.

Lemma replace_all_pieces (r : regex) (cb : string → option string → string)
  (s : string) :
  replace_all r cb s = concat_str (piece_output cb <$> pieces r s).
Proof. apply replace_go_pieces. Qed.

Lemma pieces_source (r : regex) (s : string) :
  concat_str (piece_source <$> pieces r s) = s.
Proof. unfold pieces. by rewrite pieces_go_source, drop_str_0. Qed.

Lemma pieces_go_hit (r : regex) (skip : nat) (b : option ascii) (s : string)
  (matched : string) (capture : option string) :
  Hit matched capture ∈ pieces_go r skip b s →
  ∃ b' s' m,
    match_at r b' s' = Some m ∧ matched = take_str (consumed m) s'
    ∧ capture = group1 m.
Proof.
  revert skip b. induction s as [|c s IH]; intros skip b.
  - destruct skip; simpl; [|by intros ?%elem_of_nil].
    destruct (match_at r b "") as [m|] eqn:Hm; [|by intros ?%elem_of_nil].
    intros [Heq|?%elem_of_nil]%elem_of_cons; [|done].
    inversion Heq; subst. by exists b, "", m.
  - destruct skip as [|n]; simpl; [|apply IH].
    destruct (match_at r b (String c s)) as [m|] eqn:Hm.
    + intros [Heq|Hin]%elem_of_cons.
      * inversion Heq; subst. by exists b, (String c s), m.
      * destruct (consumed m); [|by eapply IH].
        apply elem_of_cons in Hin as [?|Hin]; [done|by eapply IH].
    + intros [?|Hin]%elem_of_cons; [done|by eapply IH].
Qed.

Lemma tokenRe_match (b : option ascii) (s : string) (m : mstate) :
  match_at tokenRe b s = Some m →
  ∃ w value, return_statement (take_str (consumed m) s) (group1 m) w value.
Proof.
  unfold match_at, tokenRe. cbn [exec]. intros H.
  apply lit_inv in H as (m1 & H01 & H).
  apply one_inv in H as (c1 & m2 & Hc1 & H12 & H).
  apply star_greedy_inv in H as (w & m3 & Hw & H23 & H); [|done].
  apply one_inv in H as (c2 & m4 & Hc2 & H34 & H).
  apply star_lazy_inv in H as (v & m5 & Hv & H45 & H); [|done].
  apply lit_inv in H as (m6 & H56 & H). inversion H; subst m6; clear H.
  pose proof (moved_trans _ _ _ _ _ H34 H45) as H35.
  pose proof (moved_trans _ _ _ _ _ H12 H23) as H13.
  pose proof (moved_trans _ _ _ _ _ (moved_trans _ _ _ _ _ H01 H13) H35) as H05.
  destruct H35 as (Hr35 & Hc35 & _).
  destruct H56 as (Hr56 & Hc56 & Hg56). simpl in Hr56, Hc56, Hg56.
  destruct H05 as (Hr05 & Hc05 & _). simpl in Hr05, Hc05.
  change (String c1 "" +:+ w) with (String c1 w) in *.
  change (String c2 "" +:+ v) with (String c2 v) in *.
  exists (String c1 w), (String c2 v).
  assert (group1 m = Some (String c2 v)) as Hg.
  { rewrite Hg56. f_equal. rewrite Hr35.
    replace (consumed m5 - consumed m3) with (String.length (String c2 v))
      by lia.
    apply take_str_app. }
  assert (take_str (consumed m) s
          = "return" +:+ String c1 w +:+ String c2 v +:+ ";") as Ht.
  { rewrite Hr05, Hr56, <-str_app_assoc.
    replace (consumed m) with
      (String.length ((("return" +:+ String c1 w) +:+ String c2 v) +:+ ";")).
    - rewrite take_str_app. by rewrite !str_app_assoc.
    - rewrite Hc56, Hc05, !str_app_length. simpl. lia. }
  split_and!; try done.
  - simpl. by rewrite Hc1, Hw.
  - simpl. by rewrite Hc2, Hv.
Qed.

Lemma return_pieces (code matched : string) (capture : option string) :
  Hit matched capture ∈ pieces tokenRe code →
  ∃ w value, return_statement matched capture w value.
Proof.
  intros (b & s & m & Hm & -> & ->)%pieces_go_hit. by eapply tokenRe_match.
Qed.

(** The matcher run forward. *)

Lemma run_over_app (w1 w2 : string) (m : mstate) :
  run_over (w1 +:+ w2) m = run_over w2 (run_over w1 m).
Proof.
  revert m. induction w1 as [|c w1 IH]; intros m; [done|].
  rewrite str_app_cons. simpl. apply IH.
Qed.

Lemma run_over_rest (w s : string) (m : mstate) :
  rest m = w +:+ s → rest (run_over w m) = s.
Proof.
  revert m. induction w as [|c w IH]; intros m Hrest; [done|].
  simpl. apply IH. by rewrite Hrest.
Qed.

Lemma run_over_consumed (w : string) (m : mstate) :
  consumed (run_over w m) = consumed m + String.length w.
Proof.
  revert m. induction w as [|c w IH]; intros m; simpl; [lia|].
  rewrite IH. simpl. lia.
Qed.

Lemma run_over_group1 (w : string) (m : mstate) :
  group1 (run_over w m) = group1 m.
Proof. revert m. induction w as [|c w IH]; intros m; [done|]. simpl. by rewrite IH. Qed.

Lemma lit_run (t s : string) (m : mstate) (k : mstate → option mstate) :
  rest m = t +:+ s → lit t m k = k (run_over t m).
Proof.
  revert m. induction t as [|a t IH]; intros m Hrest; [done|].
  simpl. rewrite Hrest, str_app_cons, Ascii.eqb_refl. simpl.
  by apply IH.
Qed.

Lemma lit_fail (a c : ascii) (s : string) (m : mstate)
  (k : mstate → option mstate) :
  rest m = String c s → a ≠ c → lit (String a "") m k = None.
Proof.
  intros Hrest Hne. simpl. rewrite Hrest.
  destruct (Ascii.eqb a c) eqn:Heq; [|done]. by apply Ascii.eqb_eq in Heq.
Qed.

Lemma one_run (p : ascii → bool) (c : ascii) (s : string) (m : mstate)
  (k : mstate → option mstate) :
  rest m = String c s → p c = true →
  one p m k = k (run_over (String c "") m).
Proof. intros Hrest Hp. unfold one. simpl. by rewrite Hrest, Hp. Qed.

Lemma star_greedy_run (p : ascii → bool) (w s : string) (m : mstate)
  (k : mstate → option mstate) (r : mstate) :
  all_str p w = true →
  (∀ c, char0 s = Some c → p c = false) →
  rest m = w +:+ s →
  k (run_over w m) = Some r →
  star_greedy p (w +:+ s) m k = Some r.
Proof.
  revert m. induction w as [|c w IH]; intros m Hall Hstop Hrest Hk.
  - rewrite str_app_nil_l. destruct s as [|c s]; [done|].
    simpl. by rewrite (Hstop c eq_refl).
  - simpl in Hall. apply andb_true_iff in Hall as [Hc Hall].
    rewrite str_app_cons. simpl. rewrite Hc.
    rewrite (IH (step c (w +:+ s) m)); [done..| |].
    + done.
    + simpl in Hk. by rewrite Hrest in Hk.
Qed.

Lemma star_lazy_run (p : ascii → bool) (v s : string) (m : mstate)
  (k : mstate → option mstate) (r : mstate) :
  all_str p v = true →
  rest m = v +:+ s →
  (∀ v1 v2, v = v1 +:+ v2 → v2 ≠ "" → k (run_over v1 m) = None) →
  k (run_over v m) = Some r →
  star_lazy p (v +:+ s) m k = Some r.
Proof.
  revert m. induction v as [|c v IH]; intros m Hall Hrest Hearly Hk.
  - rewrite str_app_nil_l. destruct s; simpl; simpl in Hk; by rewrite Hk.
  - simpl in Hall. apply andb_true_iff in Hall as [Hc Hall].
    rewrite str_app_cons. simpl.
    pose proof (Hearly "" (String c v) eq_refl) as Hfirst. simpl in Hfirst.
    rewrite Hfirst by done. rewrite Hc.
    apply IH; [done..| |].
    + intros v1 v2 -> Hv2.
      specialize (Hearly (String c v1) v2 eq_refl Hv2). simpl in Hearly.
      by rewrite Hrest in Hearly.
    + simpl in Hk. by rewrite Hrest in Hk.
Qed.

Lemma run_over_set_group (w t : string) (m : mstate) :
  run_over w (set_group t m) = set_group t (run_over w m).
Proof. revert m. induction w as [|c w IH]; intros m; [done|]. simpl. by rewrite <-IH. Qed.

Lemma tokenRe_run (b : option ascii) (w value post : string) :
  w ≠ "" → all_str js_space w = true →
  (∀ c, char0 value = Some c → js_space c = false) →
  value ≠ "" → all_str not_semicolon value = true →
  ∃ m,
    match_at tokenRe b ("return" +:+ w +:+ value +:+ ";" +:+ post) = Some m
    ∧ consumed m = String.length ("return" +:+ w +:+ value +:+ ";")
    ∧ group1 m = Some value.
Proof.
  intros Hw Hspace Hfirst Hvalue Hnosemi.
  destruct w as [|c1 w]; [done|]. destruct value as [|c v]; [done|].
  simpl in Hspace. apply andb_true_iff in Hspace as [Hc1 Hspace].
  simpl in Hnosemi. apply andb_true_iff in Hnosemi as [Hc Hnosemi].
  set (s := "return" +:+ String c1 w +:+ String c v +:+ ";" +:+ post).
  set (m0 := {| consumed := 0; before := b; rest := s; group1 := None |}).
  set (m1 := run_over "return" m0).
  set (m2 := run_over (String c1 "") m1).
  set (m3 := run_over w m2).
  set (m4 := run_over (String c "") m3).
  set (m5 := run_over v m4).
  set (t := take_str (consumed m5 - consumed m3) (rest m3)).
  assert (rest m1 = String c1 (w +:+ String c v +:+ ";" +:+ post)) as Hr1.
  { by apply (run_over_rest "return"). }
  assert (rest m2 = w +:+ String c v +:+ ";" +:+ post) as Hr2.
  { by apply (run_over_rest (String c1 "")). }
  assert (rest m3 = String c (v +:+ ";" +:+ post)) as Hr3.
  { by apply (run_over_rest w). }
  assert (rest m4 = v +:+ ";" +:+ post) as Hr4.
  { by apply (run_over_rest (String c "")). }
  assert (rest m5 = ";" +:+ post) as Hr5.
  { by apply (run_over_rest v). }
  assert (t = String c v) as Ht.
  { unfold t, m5, m4. rewrite !run_over_consumed, Hr3.
    replace (consumed m3 + String.length (String c "") + String.length v
             - consumed m3) with (String.length (String c v))
      by (simpl; lia).
    apply (take_str_app (String c v)). }
  exists (run_over ";" (set_group t m5)). split_and!.
  - unfold match_at, tokenRe. cbn [exec]. fold m0.
    rewrite (lit_run "return" (String c1 w +:+ String c v +:+ ";" +:+ post))
      by done.
    fold m1. rewrite (one_run js_space c1 _ m1 _ Hr1 Hc1). fold m2.
    rewrite Hr2.
    apply star_greedy_run; [done| |done|]. 
    { intros c' Hc'. apply Hfirst. by inversion Hc'. }
    fold m3. rewrite (one_run not_semicolon c _ m3 _ Hr3 Hc). fold m4.
    rewrite Hr4.
    apply star_lazy_run; [done|done| |].
    + intros v1 v2 -> Hv2.
      destruct v2 as [|c2 v2]; [done|].
      assert (not_semicolon c2 = true) as Hc2.
      { clear -Hnosemi. induction v1 as [|c' v1 IH]; simpl in Hnosemi.
        - by apply andb_true_iff in Hnosemi as [? _].
        - apply andb_true_iff in Hnosemi as [_ Hnosemi]. by apply IH. }
      apply (lit_fail _ c2 (v2 +:+ ";" +:+ post)).
      * cbn [set_group rest]. apply (run_over_rest v1).
        rewrite Hr4. by rewrite str_app_assoc.
      * intros <-. by vm_compute in Hc2.
    + fold m5. fold t. by rewrite (lit_run ";" post) by done.
  - rewrite run_over_set_group. cbn [set_group consumed].
    unfold m5, m4, m3, m2, m1. rewrite !run_over_consumed.
    rewrite !str_app_length. simpl. lia.
  - rewrite run_over_set_group. cbn [set_group group1]. by rewrite Ht.
Qed.

Lemma tokenRe_before (b b' : option ascii) (s : string) :
  match_at tokenRe b s = match_at tokenRe b' s.
Proof.
  unfold match_at, tokenRe. cbn [exec]. destruct s as [|c s]; [done|].
  simpl. by destruct (Ascii.eqb "r" c).
Qed.

Lemma replace_go_tokenRe_before (cb : string → option string → string)
  (skip : nat) (b b' : option ascii) (s : string) :
  replace_go tokenRe cb skip b s = replace_go tokenRe cb skip b' s.
Proof.
  destruct s as [|c s], skip as [|n]; try done; cbn [replace_go];
    by rewrite (tokenRe_before b b').
Qed.

Lemma replace_go_skip (r : regex) (cb : string → option string → string)
  (x s : string) (b : option ascii) :
  ∃ b',
    replace_go r cb (String.length x) b (x +:+ s) = replace_go r cb 0 b' s.
Proof.
  revert b. induction x as [|c x IH]; intros b; [by exists b|].
  rewrite str_app_cons. simpl. apply IH.
Qed.

Lemma tokenRe_no_return (b : option ascii) (s : string) :
  startsWith "return" s = false → match_at tokenRe b s = None.
Proof.
  intros Hstart. destruct (match_at tokenRe b s) as [m|] eqn:Hm; [|done].
  unfold match_at, tokenRe in Hm. cbn [exec] in Hm.
  apply lit_inv in Hm as (m1 & (Hrest & _) & _). simpl in Hrest.
  by rewrite Hrest, startsWith_app in Hstart.
Qed.

Lemma replace_go_no_return (cb : string → option string → string)
  (pre s : string) (b : option ascii) :
  no_return_before (String.length pre) (pre +:+ s) = true →
  replace_go tokenRe cb 0 b (pre +:+ s)
  = pre +:+ replace_go tokenRe cb 0 b s.
Proof.
  revert b. induction pre as [|c pre IH]; intros b Hnone; [done|].
  rewrite str_app_cons in *. cbn [String.length no_return_before] in Hnone.
  apply andb_true_iff in Hnone as [Hhere Hnone].
  apply negb_true_iff in Hhere.
  cbn [replace_go]. rewrite (tokenRe_no_return _ _ Hhere).
  rewrite (IH (Some c) Hnone), str_app_cons. do 2 f_equal.
  apply replace_go_tokenRe_before.
Qed.

(** A return statement with nothing that reads [return] before it is found
    and handed to the callback; the walk goes on behind it. *)
Lemma replace_return_statement (cb : string → option string → string)
  (pre w value post : string) :
  no_return_before (String.length pre)
    (pre +:+ "return" +:+ w +:+ value +:+ ";" +:+ post) = true →
  w ≠ "" → all_str js_space w = true →
  (∀ c, char0 value = Some c → js_space c = false) →
  value ≠ "" → all_str not_semicolon value = true →
  replace_all tokenRe cb (pre +:+ "return" +:+ w +:+ value +:+ ";" +:+ post)
  = pre +:+ cb ("return" +:+ w +:+ value +:+ ";") (Some value) +:+
    replace_all tokenRe cb post.
Proof.
  intros Hpre Hw Hspace Hfirst Hvalue Hnosemi. unfold replace_all.
  rewrite replace_go_no_return by done. f_equal.
  destruct (tokenRe_run None w value post Hw Hspace Hfirst Hvalue Hnosemi)
    as (m & Hm & Hconsumed & Hgroup).
  set (stmt := "return" +:+ w +:+ value +:+ ";") in *.
  assert ("return" +:+ w +:+ value +:+ ";" +:+ post = stmt +:+ post) as Hs.
  { unfold stmt. by rewrite !str_app_assoc. }
  rewrite Hs in *.
  assert (∃ c x, stmt = String c x) as (c & x & Hstmt) by (by eexists _, _).
  rewrite Hstmt in *. rewrite str_app_cons in *.
  cbn [replace_go]. rewrite Hm, Hconsumed, Hgroup.
  cbn [String.length take_str]. rewrite take_str_app. f_equal.
  destruct (replace_go_skip tokenRe cb x post (Some c)) as [b' ->].
  apply replace_go_tokenRe_before.
Qed.

(** ** The matcher at work *)

Example ex_tokenRe_1 :
  replace_all tokenRe (λ m t, "<" +:+ default "" t +:+ ">")
    "if (x) return  a b; return ;return  ; returnx;"
  = "if (x) <a b> return ;< > returnx;".
Proof. vm_compute. reflexivity. Qed.

Example ex_outer_quote :
  map (replace_all re_outer_quote (λ _ _, "")) ["'a'"; "'"; "a'b"; "''"; "x'"]
  = ["a"; ""; "a'b"; ""; "x"].
Proof. vm_compute. reflexivity. Qed.

Example ex_value_type :
  map (test re_value_type)
    ["using Value = int;"; "typedef int Value;"; "using Values = int;";
     "struct  Value {};"; "busing Value"; "typedef Value"; "typedef  a_1 Value2"]
  = [true; true; false; true; false; false; true].
Proof. vm_compute. reflexivity. Qed.

Example ex_result_var :
  replace_all re_result_var (λ _ _, "auto __") "__ = _1 + a__; x(__)"
  = "auto __ = _1 + a__; x(auto __)".
Proof. vm_compute. reflexivity. Qed.

Example ex_ends_with_semicolon :
  map (test re_ends_with_semicolon) ["a;"; "a;  "; "a; b"; ""; ";" +:+ nl]
  = [true; true; false; false; true].
Proof. vm_compute. reflexivity. Qed.

Example ex_actionFromHandler :
  map (_actionFromHandler {["+" := 3]})
    ["__ = _1 + _3"; "return '+'"; "yytext = 1; return NUMBER;"; "  "]
  = ["auto __ = _1 + _3;"; "return TokenType::TOKEN_TYPE_3;";
     "tokenizer.yytext = 1; return TokenType::NUMBER;"; ";"].
Proof. vm_compute. reflexivity. Qed.

(** ** Quotes around a returned value *)

Lemma outer_quote_inside (x c : ascii) (s' : string) :
  match_at re_outer_quote (Some x) (String c s')
  = if is_quote c then
      match s' with
      | "" => Some {| consumed := 1; before := Some c; rest := ""; group1 := None |}
      | String _ _ => None
      end
    else None.
Proof.
  unfold match_at, re_outer_quote. cbn [exec before one rest].
  destruct (is_quote c); [|done]. by destruct s'.
Qed.

Lemma strip_quotes_inside (x : ascii) (s : string) :
  replace_go re_outer_quote (λ _ _, "") 0 (Some x) s = strip_trailing_quote s.
Proof.
  revert x. induction s as [|c s IH]; intros x; [done|].
  cbn [replace_go]. rewrite outer_quote_inside.
  destruct (is_quote c) eqn:Hc.
  - destruct s as [|c' s].
    + cbn [strip_trailing_quote]. rewrite Hc. reflexivity.
    + rewrite IH. reflexivity.
  - rewrite IH. destruct s as [|c' s]; cbn [strip_trailing_quote].
    + rewrite Hc. reflexivity.
    + reflexivity.
Qed.

Lemma strip_quotes_spec (s : string) :
  strip_quotes s = strip_trailing_quote (strip_leading_quote s).
Proof.
  unfold strip_quotes, replace_all. destruct s as [|c s]; [done|].
  cbn [replace_go strip_leading_quote].
  unfold match_at, re_outer_quote. cbn [exec before one rest].
  destruct (is_quote c) eqn:Hc.
  - cbn [step consumed]. rewrite str_app_nil_l. apply strip_quotes_inside.
  - rewrite strip_quotes_inside.
    destruct s as [|c' s]; cbn [strip_trailing_quote].
    + rewrite Hc. reflexivity.
    + reflexivity.
Qed.

(** ** Placeholder rewriting *)


Lemma scopeVars_first_return (terminalsMap : gmap string nat)
  (code pre w value post : string) :
  first_return_statement (scopeNames code) pre w value post →
  _scopeVars terminalsMap code
  = pre +:+
    scopeReturn terminalsMap ("return" +:+ w +:+ value +:+ ";") (Some value)
    +:+ replace_all tokenRe (scopeReturn terminalsMap) post.
Proof.
  intros (Hcode & Hpre & Hw & Hspace & Hfirst & Hvalue & Hnosemi).
  unfold _scopeVars. rewrite Hcode in *. by apply replace_return_statement.
Qed.







(** ** Token types *)

Lemma mapM_tokenTypes (tokens : list (string * nat)) (this : Generator) :
  mapM generateTokenType tokens this
  = Ok (tokenTypeMember (_grammar this) <$> tokens)
      (with_terminalsMap
         (recordTerminals (_grammar this) (_terminalsMap this) tokens) this).
Proof.
  revert this. induction tokens as [|[token index] tokens IH]; intros this.
  - by destruct this.
  - cbn [mapM fmap list_fmap tokenTypeMember recordTerminals foldl].
    unfold mbind at 1, Gen_bind. unfold generateTokenType at 1.
    unfold mbind at 1, Gen_bind, get_this.
    destruct (bool_decide (token ∈ _tokensMap (_grammar this))) eqn:Hdecl.
    + unfold mret at 1, Gen_ret. unfold mbind at 1, Gen_bind.
      rewrite IH. reflexivity.
    + unfold mbind at 1, Gen_bind, set_terminal.
      destruct (bool_decide (token = "$"));
        unfold mret at 1, Gen_ret; unfold mbind at 1, Gen_bind;
        rewrite IH; reflexivity.
Qed.

Lemma generateTokenTypes_run (this : Generator) :
  generateTokenTypes this
  = Ok ()
      (with_slots
         (<["TOKEN_TYPES" :=
              join ("," +:+ nl +:+ "  ")
                (tokenTypeMember (_grammar this) <$> _tokens this)]>
            (slots this))
         (with_terminalsMap
            (recordTerminals (_grammar this) (_terminalsMap this)
               (_tokens this))
            this)).
Proof.
  unfold generateTokenTypes. unfold mbind at 1, Gen_bind, get_this.
  unfold mbind at 1, Gen_bind. by rewrite mapM_tokenTypes.
Qed.

Lemma recordTerminals_cons (grammar : Grammar) (terminalsMap : gmap string nat)
  (token : string) (index : nat) (tokens : list (string * nat)) :
  recordTerminals grammar terminalsMap ((token, index) :: tokens)
  = recordTerminals grammar
      (if bool_decide (token ∈ _tokensMap grammar) then terminalsMap
       else <[token := index]> terminalsMap)
      tokens.
Proof. reflexivity. Qed.

Lemma recordTerminals_other (grammar : Grammar) (terminalsMap : gmap string nat)
  (tokens : list (string * nat)) (token : string) :
  token ∉ obj_keys tokens →
  recordTerminals grammar terminalsMap tokens !! token = terminalsMap !! token.
Proof.
  revert terminalsMap.
  induction tokens as [|[t i] tokens IH]; intros terminalsMap Hnotin; [done|].
  apply not_elem_of_cons in Hnotin as [Hne Hnotin].
  rewrite recordTerminals_cons, (IH _ Hnotin).
  destruct (bool_decide (t ∈ _tokensMap grammar)); [done|].
  by rewrite lookup_insert_ne.
Qed.

Lemma recordTerminals_lookup (grammar : Grammar)
  (terminalsMap : gmap string nat) (tokens : list (string * nat))
  (token : string) (index : nat) :
  NoDup (obj_keys tokens) →
  (token, index) ∈ tokens →
  token ∉ _tokensMap grammar →
  recordTerminals grammar terminalsMap tokens !! token = Some index.
Proof.
  revert terminalsMap.
  induction tokens as [|[t i] tokens IH]; intros terminalsMap Hnodup Hin Hdecl.
  - by apply elem_of_nil in Hin.
  - apply NoDup_cons in Hnodup as [Hfresh Hnodup].
    rewrite recordTerminals_cons.
    apply elem_of_cons in Hin as [Heq|Hin].
    + inversion Heq; subst t i. rewrite recordTerminals_other by done.
      rewrite bool_decide_eq_false_2 by done. apply lookup_insert_eq.
    + by apply IH.
Qed.

(** C10: when [$] is a terminal that the grammar does not declare as a named
    token, [generateTokenTypes] leaves [$] in the terminal map, bound to its
    code; so a return statement whose value is the quoted [$] becomes
    [return TokenType::TOKEN_TYPE_<code>;], not [return TokenType::__EOF;]. *)
Theorem eof_literal_recorded (this : Generator) (index : nat) :
  NoDup (obj_keys (_tokens this)) →
  ("$", index) ∈ _tokens this →
  "$" ∉ _tokensMap (_grammar this) →
  ∃ this',
    generateTokenTypes this = Ok () this'
    ∧ _terminalsMap this' !! "$" = Some index
    ∧ (∀ code matched value,
         Hit matched (Some value) ∈ pieces tokenRe (scopeNames code) →
         strip_quotes value = "$" →
         piece_output (scopeReturn (_terminalsMap this'))
           (Hit matched (Some value))
         = "return TokenType::TOKEN_TYPE_" +:+ pretty index +:+ ";")
    ∧ _scopeVars (_terminalsMap this') "return '$';"
      = "return TokenType::TOKEN_TYPE_" +:+ pretty index +:+ ";"
    ∧ _scopeVars (_terminalsMap this') "return '$';"
      ≠ "return TokenType::__EOF;".
Proof.
  intros Hnodup Hin Hdecl. eexists. split; [apply generateTokenTypes_run|].
  cbn [_terminalsMap with_slots with_terminalsMap].
  pose proof (recordTerminals_lookup _ (_terminalsMap this) _ _ _
                Hnodup Hin Hdecl) as Hlookup.
  assert (∀ matched value,
            strip_quotes value = "$" →
            piece_output
              (scopeReturn
                 (recordTerminals (_grammar this) (_terminalsMap this)
                    (_tokens this)))
              (Hit matched (Some value))
            = "return TokenType::TOKEN_TYPE_" +:+ pretty index +:+ ";")
    as Hout.
  { intros matched value Hstrip. cbn [piece_output scopeReturn].
    rewrite Hstrip. change (is_empty_literal "$") with false. cbv iota.
    by rewrite Hlookup. }
  assert (pieces tokenRe (scopeNames "return '$';")
          = [Hit "return '$';" (Some "'$'")]) as Hpieces
    by (vm_compute; reflexivity).
  assert (_scopeVars
            (recordTerminals (_grammar this) (_terminalsMap this)
               (_tokens this)) "return '$';"
          = "return TokenType::TOKEN_TYPE_" +:+ pretty index +:+ ";") as Hrun.
  { unfold _scopeVars. rewrite replace_all_pieces, Hpieces.
    cbn [fmap list_fmap concat_str].
    rewrite Hout by (vm_compute; reflexivity). apply str_app_nil_r. }
  split_and!; [done| |done|].
  - intros code matched value _. apply Hout.
  - rewrite Hrun. discriminate.
Qed.

Lemma eof_literal_recorded_witness :
  ∃ this',
    generateTokenTypes example_generator = Ok () this'
    ∧ _terminalsMap this' !! "$" = Some 0
    ∧ piece_output (scopeReturn (_terminalsMap this'))
        (Hit "return  '$';" (Some "'$'"))
      = "return TokenType::TOKEN_TYPE_" +:+ pretty 0 +:+ ";".
Proof.
  destruct (eof_literal_recorded example_generator 0)
    as (this' & H1 & H2 & H3 & _).
  - apply (bool_decide_unpack _). vm_compute. exact I.
  - apply list_elem_of_here.
  - apply not_elem_of_empty.
  - exists this'. split_and!; [done..|].
    apply (H3 "if (eof) return  '$';").
    + apply (list_elem_of_lookup_2 _ 9). vm_compute. reflexivity.
    + vm_compute. reflexivity.
Defined.

(** C7, at the terminals [$] (code 0) and [a] (code 1), neither declared:
    the enumeration gets [__EOF = 0] and [TOKEN_TYPE_1 = 1], and the
    terminal map gets [a] and also [$], for which no placeholder member was
    written. *)
Theorem eof_recorded_without_placeholder :
  ∃ this',
    generateTokenTypes example_generator = Ok () this'
    ∧ slots this' !! "TOKEN_TYPES"
      = Some ("__EOF = 0," +:+ nl +:+ "  TOKEN_TYPE_1 = 1")
    ∧ _terminalsMap this' !! "a" = Some 1
    ∧ _terminalsMap this' !! "$" = Some 0.
Proof.
  eexists. split; [apply generateTokenTypes_run|].
  split_and!; vm_compute; reflexivity.
Qed.

(** ** Lexical rules *)

Lemma mapM_lexRules (rules : list LexRule) (this : Generator) :
  mapM generateLexRule rules this
  = Ok (imap (λ i, lexRuleEntry (length (_lexHandlers this) + i + 1)) rules)
      (with_lexHandlers
         (_lexHandlers this ++ (lexHandlerOf (_terminalsMap this) <$> rules))
         this).
Proof.
  revert this. induction rules as [|rule rules IH]; intros this.
  - cbn [mapM imap fmap list_fmap]. rewrite app_nil_r. by destruct this.
  - cbn [mapM]. unfold mbind at 1, Gen_bind. unfold generateLexRule at 1.
    unfold mbind at 1, Gen_bind, get_this.
    unfold mbind at 1, Gen_bind, push_lexHandler.
    unfold mbind at 1, Gen_bind. unfold mret at 1, Gen_ret.
    unfold mbind at 1, Gen_bind. rewrite IH.
    unfold mret, Gen_ret. rewrite imap_cons.
    cbn [_lexHandlers _terminalsMap with_lexHandlers fmap list_fmap].
    f_equal.
    + f_equal.
      * unfold lexRuleEntry. rewrite length_app. cbn [length].
        by rewrite Nat.add_0_r.
      * apply imap_ext. intros i r _. unfold compose.
        rewrite length_app. cbn [length].
        by replace (length (_lexHandlers this) + 1 + i + 1)
          with (length (_lexHandlers this) + S i + 1) by lia.
    + unfold with_lexHandlers. simpl. by rewrite <-app_assoc.
Qed.

Lemma generateLexRules_run (this : Generator) :
  let rules := getRules (getLexGrammar (_grammar this)) in
  let entries :=
    imap (λ i, lexRuleEntry (length (_lexHandlers this) + i + 1)) rules in
  generateLexRules this
  = Ok ()
      (with_slots
         (<["LEX_RULES" :=
              "{{" +:+ nl +:+ "  " +:+ join ("," +:+ nl +:+ "  ") entries +:+
              nl +:+ "}}"]>
            (<["LEX_RULES_COUNT" := pretty (length rules)]> (slots this)))
         (with_lexHandlers
            (_lexHandlers this ++ (lexHandlerOf (_terminalsMap this) <$> rules))
            this)).
Proof.
  intros rules entries. subst rules entries. unfold generateLexRules.
  unfold mbind at 1, Gen_bind, get_this. unfold mbind at 1, Gen_bind.
  rewrite mapM_lexRules. unfold mbind, Gen_bind, writeData.
  rewrite length_imap. reflexivity.
Qed.

Lemma occurrences_cons (p : string) (c : ascii) (s : string) :
  occurrences p (String c s)
  = (if startsWith p (String c s) then 1 else 0) + occurrences p s.
Proof. reflexivity. Qed.

Lemma occurrences_return_prefix (raw : string) :
  includes raw "return" = false → occurrences "return" ("return " +:+ raw) = 1.
Proof.
  intros Hnone%includes_occurrences.
  change ("return " +:+ raw) with
    (String "r" (String "e" (String "t" (String "u" (String "r"
       (String "n" (String " " raw)))))))%char.
  rewrite !occurrences_cons, Hnone. reflexivity.
Qed.

(** C6: for every lexical rule, the handler text that [generateLexRules]
    rewrites and stores is the raw body with one [return ] put in front, the
    only return in it, when the raw body holds no [return]; it is the raw
    body itself when the raw body holds a [return]. *)
Theorem lex_handler_return_synthesis (this : Generator) :
  let rules := getRules (getLexGrammar (_grammar this)) in
  ∃ this',
    generateLexRules this = Ok () this'
    ∧ length (_lexHandlers this')
      = length (_lexHandlers this) + length rules
    ∧ ∀ i lexRule,
        rules !! i = Some lexRule →
        ∃ handler,
          _lexHandlers this' !! (length (_lexHandlers this) + i)
          = Some
              {| args := "const Tokenizer& tokenizer, const std::string& yytext";
                 action := _actionFromHandler (_terminalsMap this) handler |}
          ∧ (includes (getRawHandler lexRule) "return" = false →
             handler = "return " +:+ getRawHandler lexRule
             ∧ occurrences "return" handler = 1)
          ∧ (includes (getRawHandler lexRule) "return" = true →
             handler = getRawHandler lexRule).
Proof.
  intros rules. eexists. split; [apply generateLexRules_run|].
  cbn [_lexHandlers with_slots with_lexHandlers]. fold rules. split.
  - by rewrite length_app, length_fmap.
  - intros i lexRule Hi.
    exists (if includes (getRawHandler lexRule) "return"
            then getRawHandler lexRule
            else "return " +:+ getRawHandler lexRule).
    split_and!.
    + rewrite lookup_app_r by lia.
      replace (length (_lexHandlers this) + i - length (_lexHandlers this))
        with i by lia.
      by rewrite list_lookup_fmap, Hi.
    + intros Hnone. rewrite Hnone. split; [done|].
      by apply occurrences_return_prefix.
    + by intros ->.
Qed.

Lemma lex_handler_return_synthesis_witness :
  ∃ this',
    generateLexRules example_generator = Ok () this'
    ∧ _lexHandlers this' !! 0
      = Some
          {| args := "const Tokenizer& tokenizer, const std::string& yytext";
             action := _actionFromHandler ∅ "return 'a'" |}
    ∧ _lexHandlers this' !! 2
      = Some
          {| args := "const Tokenizer& tokenizer, const std::string& yytext";
             action := _actionFromHandler ∅ "return NUMBER;" |}.
Proof.
  destruct (lex_handler_return_synthesis example_generator)
    as (this' & Hrun & _ & H).
  exists this'. split_and!; [done| |].
  - destruct (H 0 lexRule_a) as (handler & Hat & Hnone & _).
    { reflexivity. }
    destruct Hnone as [-> _].
    { vm_compute. reflexivity. }
    exact Hat.
  - destruct (H 2 lexRule_number) as (handler & Hat & _ & Hsome).
    { reflexivity. }
    rewrite Hsome in Hat.
    { exact Hat. }
    vm_compute. reflexivity.
Defined.

(** ** Objects and maps *)

Lemma foldl_pointwise {A B} (f g : A → B → A) (a : A) (l : list B) :
  (∀ a x, f a x = g a x) → foldl f a l = foldl g a l.
Proof.
  intros Hfg. revert a. induction l as [|x l IH]; intros a; [done|].
  simpl. by rewrite Hfg, IH.
Qed.

Lemma obj_set_fresh {V} (k : string) (v : V) (o : list (string * V)) :
  k ∉ obj_keys o → obj_set k v o = o ++ [(k, v)].
Proof.
  induction o as [|[k' v'] o IH]; intros Hfresh; [done|].
  apply not_elem_of_cons in Hfresh as [Hne Hfresh]. simpl.
  rewrite decide_False by done. by rewrite IH.
Qed.

Lemma foldl_obj_set_fresh {A V} (f : A → string) (g : A → V)
  (acc : list (string * V)) (l : list A) :
  NoDup (f <$> l) →
  (∀ x, x ∈ l → f x ∉ obj_keys acc) →
  foldl (λ o x, obj_set (f x) (g x) o) acc l
  = acc ++ ((λ x, (f x, g x)) <$> l).
Proof.
  revert acc. induction l as [|x l IH]; intros acc Hnodup Hfresh.
  - by rewrite app_nil_r.
  - cbn [fmap list_fmap] in Hnodup. apply NoDup_cons in Hnodup as [Hx Hnodup].
    cbn [foldl]. rewrite obj_set_fresh by (apply Hfresh; left).
    rewrite IH; [by rewrite <-app_assoc|done|].
    intros y Hy. unfold obj_keys. rewrite fmap_app.
    apply not_elem_of_app. split; [apply Hfresh; by right|].
    cbn [fmap list_fmap fst]. apply not_elem_of_cons. split; [|apply not_elem_of_nil].
    intros Heq. apply Hx. rewrite <-Heq. by apply list_elem_of_fmap_2.
Qed.

Lemma toCppMap_entries (js_Number : string → string)
  (object : list (string * jsval)) (typeName : string)
  (kt : keyType) (vt : valueType) :
  _toCppMap js_Number object typeName kt vt
  = typeName +:+ " {" +:+
    join ", "
      ((λ entry,
          "{" +:+ _mapKey js_Number (escapeKey entry.1) kt +:+ ", " +:+
          _mapValue js_Number entry.2 vt +:+ "}") <$> object)
    +:+ "}".
Proof.
  unfold _toCppMap.
  rewrite (foldl_pointwise _
             (λ result entry,
                result ++
                ["{" +:+ _mapKey js_Number (escapeKey entry.1) kt +:+ ", " +:+
                 _mapValue js_Number entry.2 vt +:+ "}"])).
  - by rewrite foldl_snoc.
  - by intros result [k value].
Qed.

Lemma generateLexRulesByStartConditions_run (js_Number : string → string)
  (this : Generator) :
  let lexGrammar := getLexGrammar (_grammar this) in
  NoDup (obj_keys (getRulesByStartConditions lexGrammar)) →
  generateLexRulesByStartConditions js_Number this
  = Ok ()
      (with_slots
         (<["LEX_RULES_BY_START_CONDITIONS" :=
              " {" +:+
              join ", "
                (startConditionEntry lexGrammar <$>
                 getRulesByStartConditions lexGrammar)
              +:+ "}"]>
            (<["TOKENIZER_STATES" :=
                 join ("," +:+ nl +:+ "  ")
                   (obj_keys (getRulesByStartConditions lexGrammar))]>
               (slots this)))
         this).
Proof.
  intros lexGrammar Hnodup. subst lexGrammar.
  unfold generateLexRulesByStartConditions.
  unfold mbind, Gen_bind, get_this, writeData, with_slots.
  cbn [_grammar _tokens _terminalsMap _productionHandlers _lexHandlers slots].
  do 3 f_equal. rewrite toCppMap_entries.
  rewrite (foldl_pointwise _
             (λ o entry,
                obj_set ("TokenizerState::" +:+ entry.1)
                  (VArr (getRuleIndex (getLexGrammar (_grammar this)) <$>
                         entry.2)) o))
    by (by intros o [condition rules]).
  rewrite foldl_obj_set_fresh.
  - cbn [app]. rewrite str_app_nil_l, <-list_fmap_compose. reflexivity.
  - unfold obj_keys in Hnodup.
    change (NoDup (String.app "TokenizerState::" ∘ fst <$>
                   getRulesByStartConditions (getLexGrammar (_grammar this)))).
    rewrite list_fmap_compose. apply (NoDup_fmap_2 _). exact Hnodup.
  - intros x _. apply not_elem_of_nil.
Qed.

(** C4, amended: the handler of the rule at place [i] of [getRules()] is put
    at the 1-based position [n + i + 1] of the flat handler list, [n]
    handlers being there before, and referenced and declared under that
    number, which comes from the length of the list; the table by start
    condition holds [getRuleIndex(rule)] for the rules of each condition, as
    the lexical grammar gives it. *)
Theorem lex_rule_position_and_index (js_Number : string → string)
  (this : Generator) :
  let lexGrammar := getLexGrammar (_grammar this) in
  let rules := getRules lexGrammar in
  let n := length (_lexHandlers this) in
  NoDup (obj_keys (getRulesByStartConditions lexGrammar)) →
  ∃ this1 this2,
    generateLexRules this = Ok () this1
    ∧ generateLexRulesByStartConditions js_Number this1 = Ok () this2
    ∧ slots this2 !! "LEX_RULES"
      = Some ("{{" +:+ nl +:+ "  " +:+
              join ("," +:+ nl +:+ "  ")
                (imap (λ i, lexRuleEntry (n + i + 1)) rules)
              +:+ nl +:+ "}}")
    ∧ (∀ i lexRule,
         rules !! i = Some lexRule →
         _lexHandlers this2 !! (n + i)
         = Some (lexHandlerOf (_terminalsMap this) lexRule)
         ∧ _generateHandlers (_lexHandlers this2) "_lexRule" "inline TokenType"
             !! (n + i)
           = Some
               ("inline TokenType" +:+ " " +:+ "_lexRule" +:+
                pretty (n + i + 1) +:+ "(" +:+
                args (lexHandlerOf (_terminalsMap this) lexRule) +:+ ") {" +:+
                nl +:+ action (lexHandlerOf (_terminalsMap this) lexRule) +:+
                nl +:+ "}"))
    ∧ slots this2 !! "LEX_RULES_BY_START_CONDITIONS"
      = Some (" {" +:+
              join ", "
                (startConditionEntry lexGrammar <$>
                 getRulesByStartConditions lexGrammar)
              +:+ "}").
Proof.
  intros lexGrammar rules n Hnodup.
  eexists. eexists. split; [apply generateLexRules_run|].
  split; [by apply generateLexRulesByStartConditions_run|].
  cbn [_grammar _lexHandlers slots with_slots with_lexHandlers].
  fold lexGrammar. fold rules. fold n.
  assert (∀ i lexRule,
            rules !! i = Some lexRule →
            (_lexHandlers this ++ (lexHandlerOf (_terminalsMap this) <$> rules))
              !! (n + i)
            = Some (lexHandlerOf (_terminalsMap this) lexRule)) as Hat.
  { intros i lexRule Hi. rewrite lookup_app_r by (unfold n; lia).
    replace (n + i - length (_lexHandlers this)) with i by (unfold n; lia).
    by rewrite list_lookup_fmap, Hi. }
  split_and!.
  - rewrite lookup_insert_ne by done. rewrite lookup_insert_ne by done.
    by rewrite lookup_insert_eq.
  - intros i lexRule Hi. split; [by apply Hat|].
    unfold _generateHandlers. rewrite list_lookup_imap, (Hat _ _ Hi).
    reflexivity.
  - by rewrite lookup_insert_eq.
Qed.

Lemma lex_rule_position_and_index_witness :
  ∃ this1 this2,
    generateLexRules example_generator = Ok () this1
    ∧ generateLexRulesByStartConditions id this1 = Ok () this2
    ∧ _lexHandlers this2 !! 1 = Some (lexHandlerOf ∅ lexRule_space).
Proof.
  destruct (lex_rule_position_and_index id example_generator)
    as (this1 & this2 & H1 & H2 & _ & H & _).
  { apply (bool_decide_unpack _). vm_compute. exact I. }
  exists this1, this2. split_and!; [done..|].
  apply (H 1 lexRule_space). reflexivity.
Defined.

(** C4 as it stands fails for a lexical grammar that numbers its rules from
    0: the handler of the first rule is the first of the flat list, declared
    and referenced as [_lexRule1], and the table by start condition holds 0
    for that rule. *)
Lemma lex_rule_index_counterexample :
  ∃ this1 this2,
    generateLexRules example_generator = Ok () this1
    ∧ generateLexRulesByStartConditions id this1 = Ok () this2
    ∧ _lexHandlers this2 !! 0 = Some (lexHandlerOf ∅ lexRule_a)
    ∧ slots this2 !! "LEX_RULES"
      = Some ("{{" +:+ nl +:+
              "  {std::regex(R" +:+ dq +:+ "(a)" +:+ dq +:+ "), &_lexRule1}," +:+
              nl +:+
              "  {std::regex(R" +:+ dq +:+ "(\s+)" +:+ dq +:+ "), &_lexRule2}," +:+
              nl +:+
              "  {std::regex(R" +:+ dq +:+ "(\d+)" +:+ dq +:+ "), &_lexRule3}" +:+
              nl +:+ "}}")
    ∧ slots this2 !! "LEX_RULES_BY_START_CONDITIONS"
      = Some " {{TokenizerState::INITIAL, {0, 1, 2}}}"
    ∧ getRuleIndex example_lexGrammar lexRule_a = 0
    ∧ getRuleIndex example_lexGrammar lexRule_a ≠ 1.
Proof.
  eexists. eexists. split; [apply generateLexRules_run|].
  split.
  { apply generateLexRulesByStartConditions_run.
    apply (bool_decide_unpack _). vm_compute. exact I. }
  split_and!; try (vm_compute; reflexivity). discriminate.
Qed.

(** ** Module include *)




(** ** Production handlers *)

Lemma param_name_inj : Inj (=) (=) param_name.
Proof.
  intros i j Heq. unfold param_name in Heq.
  apply (inj (String.app "_")) in Heq. apply (inj pretty) in Heq. lia.
Qed.

Lemma getParamsInfo_entries (grammar : Grammar) (production : Production)
  (action : string) :
  isEpsilon production = false →
  _getParamsInfo grammar production action
  = imap
      (λ index symbol,
         (param_name index,
          {| isUsed := includes action (param_name index);
             isToken := isTokenSymbol grammar symbol |}))
      (getRHS production).
Proof.
  intros Heps. unfold _getParamsInfo. rewrite Heps.
  rewrite (foldl_pointwise _
             (λ info x,
                obj_set (param_name x.1)
                  {| isUsed := includes action (param_name x.1);
                     isToken := isTokenSymbol grammar x.2 |} info))
    by (by intros info [index symbol]).
  rewrite foldl_obj_set_fresh.
  - cbn [app]. by rewrite fmap_imap.
  - rewrite fmap_imap.
    rewrite (imap_ext _ (λ index _, param_name index)) by done.
    rewrite (imap_seq_0 (getRHS production) param_name).
    pose proof param_name_inj. apply (NoDup_fmap_2 _), NoDup_seq.
  - intros x _. apply not_elem_of_nil.
Qed.

Lemma generateHandlerPrologue_lines (production : Production) (action : string)
  (argsInfo : list (string * ParamInfo)) :
  _generateHandlerPrologue production action argsInfo
  = "// Semantic action prologue." +:+ nl +:+
    join nl
      ((λ entry,
          pop_statement
            (if isToken entry.2 || derivesPropagatingToken production
             then TokensStack else ValuesStack)
            (if isUsed entry.2 then Some entry.1 else None))
       <$> reverse argsInfo)
    +:+ nl +:+ nl +:+ action.
Proof.
  unfold _generateHandlerPrologue.
  rewrite (foldl_pointwise _
             (λ argsPrologue entry,
                argsPrologue ++
                [pop_statement
                   (if isToken entry.2 || derivesPropagatingToken production
                    then TokensStack else ValuesStack)
                   (if isUsed entry.2 then Some entry.1 else None)])).
  - by rewrite foldl_snoc.
  - intros argsPrologue [name [used token]]. cbn [fst snd isToken isUsed].
    by destruct (token || derivesPropagatingToken production), used.
Qed.



Lemma buildSemanticAction_run (this : Generator) (production : Production)
  (raw : string) :
  getSemanticActionCode production = Some raw → raw ≠ "" →
  let body := _actionFromHandler (_terminalsMap this) raw in
  buildSemanticAction production this
  = Ok (Some (dq +:+ "_handler" +:+
              pretty (length (_productionHandlers this) + 1) +:+ dq))
      (with_productionHandlers
         (_productionHandlers this ++
          [{| args := "yyparse& parser";
              action :=
                _generateHandlerEpilogue production
                  (_generateHandlerPrologue production body
                     (_getParamsInfo (_grammar this) production body)) |}])
         this).
Proof.
  intros Hraw Hne body. unfold buildSemanticAction. rewrite Hraw.
  destruct raw as [|c raw]; [done|].
  unfold mbind, Gen_bind, get_this, push_productionHandler, mret, Gen_ret.
  cbn [_productionHandlers _terminalsMap _grammar with_productionHandlers].
  by rewrite length_app.
Qed.

Lemma buildSemanticAction_none (this : Generator) (production : Production) :
  getSemanticActionCode production = None
  ∨ getSemanticActionCode production = Some "" →
  buildSemanticAction production this = Ok None this.
Proof. unfold buildSemanticAction. by intros [-> | ->]. Qed.


(** The text holds a name also where the name begins a longer one. *)
Example param_name_in_longer_name :
  includes "__ = _10" (param_name 0) = true
  ∧ includes "return TokenType::TOKEN_TYPE_1;" (param_name 0) = true.
Proof. split; vm_compute; reflexivity. Qed.


(** ** The parsing table *)

Lemma decode_directive_shift (operand : string) :
  decode_directive ("s" +:+ operand) = (Shift, operand).
Proof. reflexivity. Qed.

Lemma decode_directive_reduce (operand : string) :
  decode_directive ("r" +:+ operand) = (Reduce, operand).
Proof. reflexivity. Qed.

Lemma decode_directive_accept : decode_directive "acc" = (Accept, "0").
Proof. reflexivity. Qed.

Lemma decode_directive_other (directive : string) :
  char0 directive ≠ Some "s"%char → char0 directive ≠ Some "r"%char →
  directive ≠ "acc" →
  decode_directive directive = (Transit, directive).
Proof.
  intros Hs Hr Hacc. destruct directive as [|c directive]; [done|].
  unfold decode_directive. rewrite bool_decide_eq_false_2 by done.
  destruct c as [[] [] [] [] [] [] [] []]; try done.
Qed.

Lemma encodeEntry_text (directive : string) :
  encodeEntry (VStr directive) = cell (decode_directive directive).
Proof.
  unfold encodeEntry. cbn [first_char slice1_val is_text to_text].
  destruct (decide (char0 directive = Some "s"%char)) as [Hs|Hs].
  { destruct directive as [|c directive]; [done|].
    inversion Hs; subst c. reflexivity. }
  rewrite (bool_decide_eq_false_2 _ Hs).
  destruct (decide (char0 directive = Some "r"%char)) as [Hr|Hr].
  { destruct directive as [|c directive]; [done|].
    inversion Hr; subst c. reflexivity. }
  rewrite (bool_decide_eq_false_2 _ Hr).
  destruct (decide (directive = "acc")) as [->|Hacc]; [reflexivity|].
  rewrite (bool_decide_eq_false_2 _ Hacc).
  by rewrite decode_directive_other.
Qed.

Lemma encodeEntry_number (n : nat) :
  encodeEntry (VNum n) = cell (Transit, pretty n).
Proof. reflexivity. Qed.

Lemma encode_decode_directive (directive : string) :
  encode_directive (decode_directive directive) = directive.
Proof.
  destruct (decide (char0 directive = Some "s"%char)) as [Hs|Hs].
  { destruct directive as [|c directive]; [done|].
    inversion Hs; subst c. reflexivity. }
  destruct (decide (char0 directive = Some "r"%char)) as [Hr|Hr].
  { destruct directive as [|c directive]; [done|].
    inversion Hr; subst c. reflexivity. }
  destruct (decide (directive = "acc")) as [->|Hacc]; [reflexivity|].
  by rewrite decode_directive_other.
Qed.

Lemma drop_last_snoc (s : string) (c : ascii) :
  drop_last (s +:+ String c "") = s.
Proof.
  unfold drop_last. rewrite str_app_length. simpl.
  replace (String.length s + 1 - 1) with (String.length s) by lia.
  apply take_str_app.
Qed.

Lemma read_cell_as_same (k : Kind) (operand : string) :
  read_cell_as k (cell (k, operand)) = Some (k, operand).
Proof.
  assert (cell (k, operand)
          = ("{TE::" +:+ kind_name k +:+ ", ") +:+ operand +:+ "}") as ->.
  { unfold cell. cbn [fst snd]. by rewrite !str_app_assoc. }
  unfold read_cell_as.
  rewrite startsWith_app, drop_str_app. by rewrite drop_last_snoc.
Qed.

Lemma read_cell_as_other (k k' : Kind) (operand : string) :
  k ≠ k' → read_cell_as k (cell (k', operand)) = None.
Proof.
  intros Hne. unfold read_cell_as.
  assert (startsWith ("{TE::" +:+ kind_name k +:+ ", ") (cell (k', operand))
          = false) as ->; [|done].
  destruct k, k'; try done; vm_compute; reflexivity.
Qed.

Lemma read_cell_text (k : Kind) (operand : string) :
  read_cell (cell (k, operand)) = Some (k, operand).
Proof.
  unfold read_cell. destruct k.
  - by rewrite read_cell_as_same.
  - rewrite read_cell_as_other by done. by rewrite read_cell_as_same.
  - rewrite !read_cell_as_other by done. by rewrite read_cell_as_same.
  - rewrite !read_cell_as_other by done. by rewrite read_cell_as_same.
Qed.

Lemma obj_set_middle {V} (k : string) (v v' : V) (pre post : list (string * V)) :
  k ∉ obj_keys pre →
  obj_set k v' (pre ++ (k, v) :: post) = pre ++ (k, v') :: post.
Proof.
  induction pre as [|[k0 v0] pre IH]; intros Hfresh.
  - simpl. by rewrite decide_True.
  - apply not_elem_of_cons in Hfresh as [Hne Hfresh]. simpl.
    rewrite decide_False by done. by rewrite IH.
Qed.

Lemma encodeRow_from (pre row : Row) :
  NoDup (obj_keys (pre ++ row)) →
  foldl (λ acc entry, obj_set entry.1 (VStr (encodeEntry entry.2)) acc)
    (pre ++ row) row
  = pre ++ encodedRow row.
Proof.
  revert pre. induction row as [|[k v] row IH]; intros pre Hnodup; [done|].
  cbn [foldl fst snd]. rewrite obj_set_middle.
  - rewrite (cons_middle _ pre row), app_assoc. rewrite IH.
    + by rewrite <-app_assoc.
    + rewrite <-app_assoc. unfold obj_keys in *.
      by rewrite fmap_app, fmap_cons in *.
  - unfold obj_keys in Hnodup. rewrite fmap_app in Hnodup.
    apply NoDup_app in Hnodup as (_ & Hdisjoint & _).
    intros Hin. apply (Hdisjoint _ Hin). left.
Qed.

Lemma encodeRow_encoded (row : Row) :
  NoDup (obj_keys row) → encodeRow row = encodedRow row.
Proof.
  intros Hnodup. unfold encodeRow.
  rewrite (foldl_pointwise _
             (λ acc entry, obj_set entry.1 (VStr (encodeEntry entry.2)) acc))
    by (by intros acc [key entry]).
  apply (encodeRow_from [] row Hnodup).
Qed.

Lemma buildTable_fold (js_Number : string → string)
  (table : list (string * nat)) (entries : list string) (store : list Row) :
  NoDup table.*2 →
  foldl
    (λ '(entries, store) '(state, place),
       let row := encodeRow (store !!! place) in
       let store := <[place := row]> store in
       (entries ++ [_toCppMap js_Number row "Row" KeyNumber ValRaw], store))
    (entries, store) table
  = (entries ++
     ((λ st, _toCppMap js_Number (encodeRow (store !!! st.2)) "Row"
               KeyNumber ValRaw) <$> table),
     foldl (λ store st, <[st.2 := encodeRow (store !!! st.2)]> store)
       store table).
Proof.
  revert entries store.
  induction table as [|[state place] table IH]; intros entries store Hnodup.
  - by rewrite app_nil_r.
  - rewrite fmap_cons in Hnodup. apply NoDup_cons in Hnodup as [Hfresh Hnodup].
    cbn [foldl]. rewrite IH by done. cbn [fmap list_fmap snd].
    rewrite <-app_assoc. cbn [app]. do 3 f_equal.
    apply list_fmap_ext. intros i [state' place'] Hi. cbn [snd].
    rewrite list_lookup_total_insert_ne; [done|].
    intros ->. apply Hfresh.
    apply list_elem_of_lookup_2 in Hi.
    by apply (list_elem_of_fmap_2 snd) in Hi.
Qed.

Lemma store_fold_other (table : list (string * nat)) (store : list Row)
  (place : nat) :
  place ∉ table.*2 →
  foldl (λ store st, <[st.2 := encodeRow (store !!! st.2)]> store) store table
    !! place
  = store !! place.
Proof.
  revert store. induction table as [|[state place'] table IH];
    intros store Hnotin; [done|].
  rewrite fmap_cons in Hnotin. apply not_elem_of_cons in Hnotin as [Hne Hnotin].
  cbn [foldl snd]. rewrite IH by done. by rewrite list_lookup_insert_ne.
Qed.

Lemma store_fold_lookup (table : list (string * nat)) (store : list Row)
  (place : nat) (row : Row) :
  NoDup table.*2 →
  place ∈ table.*2 →
  store !! place = Some row →
  foldl (λ store st, <[st.2 := encodeRow (store !!! st.2)]> store) store table
    !! place
  = Some (encodeRow row).
Proof.
  revert store. induction table as [|[state place'] table IH];
    intros store Hnodup Hin Hrow.
  - by apply elem_of_nil in Hin.
  - rewrite fmap_cons in Hnodup, Hin.
    apply NoDup_cons in Hnodup as [Hfresh Hnodup]. cbn [foldl snd].
    apply elem_of_cons in Hin as [->|Hin].
    + rewrite store_fold_other by done.
      rewrite list_lookup_insert_eq by (by eapply lookup_lt_Some).
      by rewrite (list_lookup_total_correct _ _ _ Hrow).
    + apply IH; [done..|]. rewrite list_lookup_insert_ne; [done|].
      by intros ->.
Qed.

Lemma buildTable_run (js_Number : string → string)
  (table : list (string * nat)) (store : list Row) (this : Generator) :
  NoDup table.*2 →
  _buildTable js_Number table store this
  = Ok ("{" +:+ nl +:+ "    " +:+
        join ("," +:+ nl +:+ "    ")
          ((λ st, _toCppMap js_Number (encodeRow (store !!! st.2)) "Row"
                    KeyNumber ValRaw) <$> table)
        +:+ nl +:+ "}",
        foldl (λ store st, <[st.2 := encodeRow (store !!! st.2)]> store)
          store table)
      (with_slots (<["ROWS_COUNT" := pretty (length table)]> (slots this))
         this).
Proof.
  intros Hnodup. unfold _buildTable. rewrite buildTable_fold by done.
  unfold mbind, Gen_bind, writeData, mret, Gen_ret. cbn [app].
  by rewrite length_fmap.
Qed.

(** C2: [_buildTable] writes over every entry of every row of the table the
    tagged pair of its raw directive: [s<N>] gives [{TE::Shift, N}], [r<N>]
    gives [{TE::Reduce, N}], [acc] gives [{TE::Accept, 0}], any other value
    gives [{TE::Transit, <value>}], a number among them. The text of the
    pair tells the kind and the operand, and they give back the raw
    directive, which decodes to the same kind and operand again. The states
    of the table hold rows of their own, and the keys of a row are pairwise
    different. *)
Theorem table_directives_decoded (js_Number : string → string)
  (table : list (string * nat)) (store : list Row) (this : Generator) :
  NoDup table.*2 →
  (∀ place, place ∈ table.*2 → place < length store) →
  (∀ place row,
     place ∈ table.*2 → store !! place = Some row → NoDup (obj_keys row)) →
  ∃ text store',
    _buildTable js_Number table store this
    = Ok (text, store')
        (with_slots (<["ROWS_COUNT" := pretty (length table)]> (slots this))
           this)
    ∧ text
      = "{" +:+ nl +:+ "    " +:+
        join ("," +:+ nl +:+ "    ")
          ((λ st, _toCppMap js_Number (store' !!! st.2) "Row"
                    KeyNumber ValRaw) <$> table)
        +:+ nl +:+ "}"
    ∧ (∀ state place row i key directive,
         (state, place) ∈ table →
         store !! place = Some row →
         row !! i = Some (key, VStr directive) →
         ∃ row',
           store' !! place = Some row'
           ∧ length row' = length row
           ∧ row' !! i = Some (key, VStr (cell (decode_directive directive))))
    ∧ (∀ state place row i key n,
         (state, place) ∈ table →
         store !! place = Some row →
         row !! i = Some (key, VNum n) →
         ∃ row',
           store' !! place = Some row'
           ∧ row' !! i = Some (key, VStr (cell (Transit, pretty n))))
    ∧ (∀ operand, decode_directive ("s" +:+ operand) = (Shift, operand))
    ∧ (∀ operand, decode_directive ("r" +:+ operand) = (Reduce, operand))
    ∧ decode_directive "acc" = (Accept, "0")
    ∧ (∀ directive,
         char0 directive ≠ Some "s"%char → char0 directive ≠ Some "r"%char →
         directive ≠ "acc" →
         decode_directive directive = (Transit, directive))
    ∧ (∀ directive,
         read_cell (cell (decode_directive directive))
         = Some (decode_directive directive)
         ∧ encode_directive (decode_directive directive) = directive
         ∧ decode_directive (encode_directive (decode_directive directive))
           = decode_directive directive).
Proof.
  intros Hnodup Hvalid Hkeys. eexists. eexists.
  split; [by apply buildTable_run|].
  assert (∀ place row,
            place ∈ table.*2 → store !! place = Some row →
            foldl (λ store st, <[st.2 := encodeRow (store !!! st.2)]> store)
              store table !! place
            = Some (encodedRow row)) as Hstore.
  { intros place row Hin Hrow.
    rewrite (store_fold_lookup _ _ _ _ Hnodup Hin Hrow).
    by rewrite encodeRow_encoded by (by eapply Hkeys). }
  split_and!.
  - do 5 f_equal.
    apply list_fmap_ext. intros i [state place] Hi. cbn [snd].
    apply list_elem_of_lookup_2, (list_elem_of_fmap_2 snd) in Hi.
    destruct (lookup_lt_is_Some_2 store place (Hvalid _ Hi)) as [row Hrow].
    rewrite (list_lookup_total_correct _ _ _ Hrow).
    by rewrite (list_lookup_total_correct _ _ _ (Hstore _ _ Hi Hrow)),
      encodeRow_encoded by (by eapply Hkeys).
  - intros state place row i key directive Hin Hrow Hentry.
    apply (list_elem_of_fmap_2 snd) in Hin.
    exists (encodedRow row). split_and!.
    + by apply Hstore.
    + unfold encodedRow. apply length_fmap.
    + unfold encodedRow. rewrite list_lookup_fmap, Hentry.
      cbn [fmap option_fmap option_map fst snd]. by rewrite encodeEntry_text.
  - intros state place row i key n Hin Hrow Hentry.
    apply (list_elem_of_fmap_2 snd) in Hin.
    exists (encodedRow row). split; [by apply Hstore|].
    unfold encodedRow, Row in *. by rewrite list_lookup_fmap, Hentry.
  - apply decode_directive_shift.
  - apply decode_directive_reduce.
  - apply decode_directive_accept.
  - apply decode_directive_other.
  - intros directive. destruct (decode_directive directive) as [k operand] eqn:Hd.
    split_and!.
    + apply read_cell_text.
    + rewrite <-Hd. apply encode_decode_directive.
    + by rewrite <-Hd, encode_decode_directive.
Qed.

Lemma table_directives_decoded_witness :
  ∃ text store',
    _buildTable id example_table example_rows example_generator
    = Ok (text, store')
        (with_slots (<["ROWS_COUNT" := pretty 2]> ∅) example_generator)
    ∧ (∃ row',
         store' !! 1 = Some row'
         ∧ row' !! 1 = Some ("4", VStr (cell (decode_directive "r2"))))
    ∧ (∃ row',
         store' !! 0 = Some row'
         ∧ row' !! 1 = Some ("2", VStr (cell (Transit, pretty 5))))
    ∧ decode_directive "12" = (Transit, "12").
Proof.
  destruct (table_directives_decoded id example_table example_rows
              example_generator)
    as (text & store' & Hrun & _ & H & Hnum & _ & _ & _ & Hother & _).
  - apply (bool_decide_unpack _). vm_compute. exact I.
  - intros place Hin.
    apply elem_of_cons in Hin as [->|Hin]; [vm_compute; lia|].
    apply elem_of_cons in Hin as [->|Hin]; [vm_compute; lia|].
    by apply elem_of_nil in Hin.
  - intros place row Hin Hrow.
    apply elem_of_cons in Hin as [->|Hin].
    { inversion Hrow; subst row. apply (bool_decide_unpack _). vm_compute. exact I. }
    apply elem_of_cons in Hin as [->|Hin].
    { inversion Hrow; subst row. apply (bool_decide_unpack _). vm_compute. exact I. }
    by apply elem_of_nil in Hin.
  - exists text, store'. split_and!; [exact Hrun| | |].
    + destruct (H "1" 1 [("0", VStr "acc"); ("4", VStr "r2")] 1 "4" "r2")
        as (row' & Hrow' & _ & Hentry).
      * apply (list_elem_of_lookup_2 _ 1). reflexivity.
      * reflexivity.
      * reflexivity.
      * by exists row'.
    + destruct (Hnum "0" 0 [("1", VStr "s3"); ("2", VNum 5)] 1 "2" 5)
        as (row' & Hrow' & Hentry).
      * apply (list_elem_of_lookup_2 _ 0). reflexivity.
      * reflexivity.
      * reflexivity.
      * by exists row'.
    + apply Hother; [discriminate..].
Defined.

(** Two states that hold one row object: the entries of the row are encoded
    once for each state, the second time as transits. *)
Example shared_row_encoded_twice :
  ∃ store' this',
    _buildTable id shared_table example_rows example_generator
    = Ok ("{" +:+ nl +:+
          "    Row {{1, {TE::Shift, 3}}, {2, {TE::Transit, 5}}}," +:+ nl +:+
          "    Row {{1, {TE::Transit, {TE::Shift, 3}}}, " +:+
          "{2, {TE::Transit, {TE::Transit, 5}}}}" +:+ nl +:+ "}",
          store') this'.
Proof. eexists. eexists. vm_compute. reflexivity. Qed.

(** ** Handler references *)

Lemma buildSemanticAction_has_action (this : Generator)
  (production : Production) :
  buildSemanticAction production this
  = if has_action production then
      Ok (Some (dq +:+ "_handler" +:+
                pretty (length (_productionHandlers this) + 1) +:+ dq))
        (with_productionHandlers
           (_productionHandlers this ++ [productionHandlerOf this production])
           this)
    else Ok None this.
Proof.
  unfold has_action.
  destruct (getSemanticActionCode production) as [raw|] eqn:Hraw.
  - destruct (decide (raw = "")) as [->|Hne].
    + by rewrite buildSemanticAction_none by (right; done).
    + rewrite (buildSemanticAction_run _ _ _ Hraw Hne).
      unfold productionHandlerOf. rewrite Hraw. by destruct raw.
  - by rewrite buildSemanticAction_none by (left; done).
Qed.

(** The reference of a production with a semantic action is the number of
    the productions with a semantic action up to it, added to the number of
    the handlers stored before; the handlers are stored in that order. *)
Lemma mapM_rawProductionData (productions : list Production)
  (this : Generator) :
  mapM rawProductionData productions this
  = Ok (rawDataFrom (length (_productionHandlers this)) productions)
      (with_productionHandlers
         (_productionHandlers this ++
          (productionHandlerOf this <$> filter (λ p, has_action p = true)
                                          productions))
         this).
Proof.
  revert this. induction productions as [|production rest IH]; intros this.
  - cbn [mapM rawDataFrom filter list_filter fmap list_fmap].
    rewrite app_nil_r. by destruct this.
  - cbn [mapM rawDataFrom]. unfold mbind at 1, Gen_bind.
    unfold rawProductionData at 1. unfold mbind at 1, Gen_bind.
    rewrite buildSemanticAction_has_action.
    rewrite filter_cons.
    destruct (has_action production) eqn:Haction.
    + rewrite decide_True by done.
      unfold mret at 1, Gen_ret. unfold mbind at 1, Gen_bind. rewrite IH.
      unfold mret, Gen_ret.
      cbn [_productionHandlers _terminalsMap _grammar with_productionHandlers
           option_list fmap list_fmap].
      rewrite length_app. cbn [length].
      f_equal. unfold with_productionHandlers. simpl.
      by rewrite <-app_assoc.
    + rewrite decide_False by done.
      unfold mret at 1, Gen_ret. unfold mbind at 1, Gen_bind. rewrite IH.
      unfold mret, Gen_ret. cbn [option_list]. by rewrite app_nil_r.
Qed.

Lemma rawDataFrom_lookup (n : nat) (productions : list Production)
  (i : nat) (production : Production) :
  productions !! i = Some production →
  has_action production = true →
  rawDataFrom n productions !! i
  = Some
      [pretty (if isEpsilon production then 0
               else length (getRHS production));
       getLHS production;
       dq +:+ "_handler" +:+
       pretty (n + length (filter (λ p, has_action p = true)
                             (take (S i) productions))) +:+ dq].
Proof.
  revert n i. induction productions as [|p rest IH]; intros n i Hi Haction.
  - done.
  - destruct i as [|i].
    + inversion Hi; subst p. cbn [rawDataFrom]. rewrite Haction.
      cbn [take]. rewrite take_0, filter_cons, decide_True by done.
      reflexivity.
    + change (rest !! i = Some production) in Hi.
      cbn [rawDataFrom]. rewrite firstn_cons, filter_cons.
      destruct (has_action p) eqn:Hp.
      * rewrite decide_True by done.
        etrans; [exact (IH (n + 1) i Hi Haction)|].
        cbn [length].
        by replace (n + 1 + length (filter (λ p0, has_action p0 = true)
                                      (take (S i) rest)))
          with (n + S (length (filter (λ p0, has_action p0 = true)
                                 (take (S i) rest)))) by lia.
      * rewrite decide_False by done. exact (IH n i Hi Haction).
Qed.

Lemma rawDataFrom_shape (n : nat) (productions : list Production)
  (i : nat) (production : Production) :
  productions !! i = Some production →
  ∃ reference,
    rawDataFrom n productions !! i
    = Some
        ([pretty (if isEpsilon production then 0
                  else length (getRHS production));
          getLHS production] ++ reference)
    ∧ length reference ≤ 1.
Proof.
  revert n i. induction productions as [|p rest IH]; intros n i Hi; [done|].
  destruct i as [|i].
  - inversion Hi; subst p. cbn [rawDataFrom].
    destruct (has_action production).
    + eexists [_]. split; [reflexivity|simpl; lia].
    + exists []. split; [reflexivity|simpl; lia].
  - change (rest !! i = Some production) in Hi. cbn [rawDataFrom].
    destruct (has_action p); apply (IH _ i Hi).
Qed.

(** The reference [generateProductionsData] writes for a production is its
    place among all the productions, counted from 1. *)
Lemma generateProductionsData_entry (this : Generator) (i : nat)
  (production : Production) :
  getProductions (_grammar this) !! i = Some production →
  ∃ entries this',
    generateProductionsData this = Ok entries this'
    ∧ entries !! i
      = Some ("{" +:+
              join ", "
                [pretty (if isEpsilon production then 0
                         else length (getRHS production));
                 getLHS production;
                 "&_handler" +:+ pretty (i + 1)]
              +:+ "}")
    ∧ _productionHandlers this'
      = _productionHandlers this ++
        (productionHandlerOf this <$>
         filter (λ p, has_action p = true) (getProductions (_grammar this))).
Proof.
  intros Hi. eexists. eexists. split.
  - unfold generateProductionsData. unfold mbind at 1, Gen_bind, get_this.
    unfold mbind at 1, Gen_bind, writeData.
    unfold mbind at 1, Gen_bind, generateRawProductionsData.
    unfold mbind at 1, Gen_bind, get_this.
    cbn [_grammar with_slots]. rewrite mapM_rawProductionData. reflexivity.
  - cbn [_productionHandlers with_slots with_productionHandlers].
    split; [|done]. rewrite list_lookup_imap.
    destruct (rawDataFrom_shape (length (_productionHandlers this)) _ _ _ Hi)
      as (reference & -> & Hlen).
    cbn [fmap option_fmap option_map]. do 3 f_equal.
    destruct reference as [|r [|r' reference]]; [done|done|simpl in Hlen; lia].
Qed.

(** C3, at the productions [S → A], without a semantic action, and
    [A → 'a'], with one: [buildSemanticAction] gives the second production
    the reference [_handler1], the only handler that is stored and declared,
    and [generateProductionsData] writes [&_handler2] for it, and
    [&_handler1] for the first production, which has no handler. *)
Theorem handler_reference_by_production_index :
  ∃ this1 this2 this3,
    generateRawProductionsData example_generator
    = Ok [["1"; "S"]; ["1"; "A"; dq +:+ "_handler1" +:+ dq]] this1
    ∧ generateProductionsData example_generator
      = Ok ["{1, S, &_handler1}"; "{1, A, &_handler2}"] this2
    ∧ length (_productionHandlers this2) = 1
    ∧ (generateProductionsData;; generateProductionHandlers) example_generator
      = Ok () this3
    ∧ slots this3 !! "PRODUCTION_HANDLERS"
      = Some ("void _handler1(yyparse& parser) {" +:+ nl +:+
              "// Semantic action prologue." +:+ nl +:+
              "auto _1 = POP_T();" +:+ nl +:+ nl +:+
              "auto __ = _1;" +:+ nl +:+ nl +:+
              " // Semantic action epilogue." +:+ nl +:+
              "PUSH_TR();" +:+ nl +:+ nl +:+ "}").
Proof.
  eexists. eexists. eexists. split_and!.
  - vm_compute. reflexivity.
  - vm_compute. reflexivity.
  - vm_compute. reflexivity.
  - vm_compute. reflexivity.
  - vm_compute. reflexivity.
Qed.

(** * Further properties *)

(** ** Characters of a text *)

Lemma has_char_app (c : ascii) (s t : string) :
  has_char c (s +:+ t) = has_char c s || has_char c t.
Proof.
  induction s as [|a s IH]; [done|].
  rewrite str_app_cons. simpl. by rewrite IH, orb_assoc.
Qed.

Lemma has_char_trimStart (c : ascii) (s : string) :
  js_space c = false → has_char c s = true → has_char c (trimStart s) = true.
Proof.
  intros Hc. induction s as [|a s IH]; [done|]. simpl.
  destruct (js_space a) eqn:Ha; [|done].
  destruct (Ascii.eqb a c) eqn:Hac; [|done].
  apply Ascii.eqb_eq in Hac as ->. congruence.
Qed.

Lemma has_char_trimEnd (c : ascii) (s : string) :
  js_space c = false → has_char c s = true → has_char c (trimEnd s) = true.
Proof.
  intros Hc. induction s as [|a s IH]; [done|]. simpl. intros Hhas.
  destruct (trimEnd s) as [|a' t] eqn:Ht.
  - destruct (Ascii.eqb a c) eqn:Hac.
    + apply Ascii.eqb_eq in Hac as ->. rewrite Hc. simpl.
      by rewrite Ascii.eqb_refl.
    + simpl in Hhas. by apply IH in Hhas.
  - simpl. destruct (Ascii.eqb a c); [done|]. simpl in *. by apply IH.
Qed.

Lemma trimStart_first (s : string) (c : ascii) :
  char0 (trimStart s) = Some c → js_space c = false.
Proof.
  induction s as [|a s IH]; [done|]. simpl.
  destruct (js_space a) eqn:Ha; [done|]. simpl. by intros [= <-].
Qed.

Lemma trimEnd_first (s : string) (c : ascii) :
  char0 (trimEnd s) = Some c → char0 s = Some c.
Proof.
  destruct s as [|a s]; [done|]. simpl.
  destruct (trimEnd s); [|done]. by destruct (js_space a).
Qed.

Lemma trimEnd_last (s : string) (c : ascii) :
  last_char (trimEnd s) = Some c → js_space c = false.
Proof.
  induction s as [|a s IH]; [done|]. simpl.
  destruct (trimEnd s) as [|a' t] eqn:Ht.
  - destruct (js_space a) eqn:Ha; [done|]. simpl. by intros [= <-].
  - simpl. apply IH.
Qed.

(** ** Searching a text *)

Lemma search_inv (r : regex) (b : option ascii) (s : string) :
  search r b s = true →
  ∃ pre s' m, s = pre +:+ s' ∧ match_at r (before_after b pre) s' = Some m.
Proof.
  revert b. induction s as [|c s IH]; intros b; simpl.
  - destruct (match_at r b "") as [m|] eqn:Hm; [|done].
    intros _. by exists "", "", m.
  - destruct (match_at r b (String c s)) as [m|] eqn:Hm.
    + intros _. by exists "", (String c s), m.
    + intros (pre & s' & m & -> & Hat)%IH.
      by exists (String c pre), s', m.
Qed.

Lemma search_found (r : regex) (b : option ascii) (pre s : string)
  (m : mstate) :
  match_at r (before_after b pre) s = Some m → search r b (pre +:+ s) = true.
Proof.
  revert b. induction pre as [|c pre IH]; intros b Hm.
  - rewrite str_app_nil_l. destruct s; simpl in *; by rewrite Hm.
  - rewrite str_app_cons. simpl.
    destruct (match_at r b (String c (pre +:+ s))); [done|]. by apply IH.
Qed.

(** ** The end of a handler *)

Lemma ends_with_semicolon_at (b : option ascii) (s : string) :
  (∃ m, match_at re_ends_with_semicolon b s = Some m)
  ↔ ∃ w, s = ";" +:+ w ∧ all_str js_space w = true.
Proof.
  unfold match_at, re_ends_with_semicolon. cbn [exec]. split.
  - intros (m & H). apply lit_inv in H as (m1 & (Hr1 & _) & H).
    apply star_greedy_inv in H as (w & m2 & Hw & (Hr2 & _) & H); [|done].
    destruct (rest m2) eqn:Hrest; [|done].
    exists w. split; [|done]. simpl in Hr1.
    by rewrite Hr1, Hr2, str_app_nil_r.
  - intros (w & -> & Hw).
    set (m0 := {| consumed := 0; before := b; rest := ";" +:+ w;
                  group1 := None |}).
    exists (run_over w (run_over ";" m0)).
    rewrite (lit_run ";" w) by done.
    assert (rest (run_over ";" m0) = w +:+ "") as Hrest
      by (by rewrite str_app_nil_r).
    rewrite Hrest. apply star_greedy_run; [done|done|done|].
    by rewrite (run_over_rest w "").
Qed.

(** X1: the pattern [/;\s*$/] of [_actionFromHandler] holds for a handler
    exactly when the handler ends in a semicolon followed by white space
    only; so a semicolon is appended to every other handler and to no
    handler of that form. *)
Theorem handler_semicolon_test (handler : string) :
  test re_ends_with_semicolon handler = true
  ↔ ∃ pre w, handler = pre +:+ ";" +:+ w ∧ all_str js_space w = true.
Proof.
  unfold test. split.
  - intros (pre & s' & m & -> & Hm)%search_inv.
    destruct (proj1 (ends_with_semicolon_at _ s') (ex_intro _ m Hm))
      as (w & -> & Hw).
    by exists pre, w.
  - intros (pre & w & -> & Hw).
    destruct (proj2 (ends_with_semicolon_at (before_after None pre)
                       (";" +:+ w))) as (m & Hm); [by exists w|].
    by eapply search_found.
Qed.

(** ** What a rewriting keeps *)

Lemma has_char_pieces (cb : string → option string → string) (c : ascii)
  (ps : list piece) :
  (∀ p, p ∈ ps → has_char c (piece_source p) = true →
        has_char c (piece_output cb p) = true) →
  has_char c (concat_str (piece_source <$> ps)) = true →
  has_char c (concat_str (piece_output cb <$> ps)) = true.
Proof.
  induction ps as [|p ps IH]; intros Hkeep; [done|].
  cbn [fmap list_fmap concat_str]. rewrite !has_char_app.
  intros [Hp|Hps]%orb_true_iff; apply orb_true_iff.
  - left. apply Hkeep; [left|done].
  - right. apply IH; [|done]. intros q Hq. apply Hkeep. by right.
Qed.

Lemma replace_all_keeps_char (r : regex)
  (cb : string → option string → string) (c : ascii) (s : string) :
  (∀ matched capture,
     Hit matched capture ∈ pieces r s → has_char c matched = true →
     has_char c (cb matched capture) = true) →
  has_char c s = true → has_char c (replace_all r cb s) = true.
Proof.
  intros Hkeep Hs. rewrite replace_all_pieces.
  apply has_char_pieces; [|by rewrite pieces_source].
  intros [a|matched capture] Hin; [done|]. by apply Hkeep.
Qed.

Lemma lit_matched (t : string) (b : option ascii) (s : string) (m : mstate) :
  match_at (Lit t) b s = Some m → take_str (consumed m) s = t.
Proof.
  unfold match_at. cbn [exec]. intros H.
  apply lit_inv in H as (m' & (Hrest & Hconsumed & _) & [= ->]).
  simpl in Hrest, Hconsumed. rewrite Hrest, Hconsumed.
  apply (take_str_app t).
Qed.

Lemma result_var_matched (b : option ascii) (s : string) (m : mstate) :
  match_at re_result_var b s = Some m → take_str (consumed m) s = "__".
Proof.
  unfold match_at, re_result_var. cbn [exec]. intros H.
  destruct (xorb _ _); [|done].
  apply lit_inv in H as (m' & (Hrest & Hconsumed & _) & H).
  destruct (xorb _ _); [|done]. inversion H; subst m'.
  simpl in Hrest, Hconsumed. rewrite Hrest, Hconsumed.
  apply (take_str_app "__").
Qed.

Lemma scopeNames_keeps_char (c : ascii) (code : string) :
  has_char c "yytext" = false → has_char c "__" = false →
  has_char c code = true → has_char c (scopeNames code) = true.
Proof.
  intros Hy Hu Hcode. unfold scopeNames.
  apply replace_all_keeps_char.
  - intros matched capture (b & s & m & Hm & -> & _)%pieces_go_hit.
    by rewrite (result_var_matched _ _ _ Hm), Hu.
  - apply replace_all_keeps_char; [|done].
    intros matched capture (b & s & m & Hm & -> & _)%pieces_go_hit.
    by rewrite (lit_matched _ _ _ _ Hm), Hy.
Qed.

Lemma scopeReturn_semicolon (terminalsMap : gmap string nat)
  (matched token : string) :
  has_char ";" (scopeReturn terminalsMap matched (Some token)) = true.
Proof.
  cbn [scopeReturn]. destruct (is_empty_literal _); [done|].
  destruct (terminalsMap !! _); rewrite !has_char_app;
    apply orb_true_iff; right; apply orb_true_iff; by right.
Qed.

Lemma scopeVars_keeps_semicolon (terminalsMap : gmap string nat)
  (code : string) :
  has_char ";" code = true → has_char ";" (_scopeVars terminalsMap code) = true.
Proof.
  intros Hcode. unfold _scopeVars. apply replace_all_keeps_char.
  - intros matched capture Hin _.
    destruct (return_pieces _ _ _ Hin) as (w & value & _ & -> & _).
    apply scopeReturn_semicolon.
  - by apply scopeNames_keeps_char.
Qed.

(** X2: the action [_actionFromHandler] gives holds a semicolon, so it is
    never empty and the fallback [return nullptr;] is never given; the
    action is the rewritten handler, trimmed: it neither begins nor ends
    with white space. *)
Theorem actionFromHandler_never_empty (terminalsMap : gmap string nat)
  (handler : string) :
  let action := _actionFromHandler terminalsMap handler in
  has_char ";" action = true
  ∧ action
    = trim (_scopeVars terminalsMap
              (if test re_ends_with_semicolon handler then handler
               else handler +:+ ";"))
  ∧ (∀ c, char0 action = Some c → js_space c = false)
  ∧ (∀ c, last_char action = Some c → js_space c = false).
Proof.
  intros action. subst action. unfold _actionFromHandler.
  set (handler' := if test re_ends_with_semicolon handler then handler
                   else handler +:+ ";").
  assert (has_char ";" handler' = true) as Hhandler.
  { unfold handler'.
    destruct (test re_ends_with_semicolon handler) eqn:Htest.
    - apply search_inv in Htest as (pre & s' & m & -> & Hm).
      destruct (proj1 (ends_with_semicolon_at _ s') (ex_intro _ m Hm))
        as (w & -> & _).
      rewrite !has_char_app. apply orb_true_iff. right. done.
    - rewrite has_char_app. apply orb_true_iff. by right. }
  assert (has_char ";" (trim (_scopeVars terminalsMap handler')) = true)
    as Htrim.
  { unfold trim. apply has_char_trimEnd; [done|].
    apply has_char_trimStart; [done|]. by apply scopeVars_keeps_semicolon. }
  destruct (trim (_scopeVars terminalsMap handler')) as [|a t] eqn:Haction;
    [done|].
  split_and!; [done|done| |].
  - intros c Hc. rewrite <-Haction in Hc. unfold trim in Hc.
    by apply trimEnd_first, trimStart_first in Hc.
  - intros c Hc. rewrite <-Haction in Hc. by apply trimEnd_last in Hc.
Qed.

(** ** Code the rewriting leaves alone *)

Lemma includes_cons_false (c : ascii) (s t : string) :
  includes (String c s) t = false →
  startsWith t (String c s) = false ∧ includes s t = false.
Proof. simpl. by intros [? ?]%orb_false_iff. Qed.

Lemma replace_go_untouched (r : regex)
  (cb : string → option string → string) (t : string) (b : option ascii)
  (s : string) :
  (∀ b' s', startsWith t s' = false → match_at r b' s' = None) →
  includes s t = false → replace_go r cb 0 b s = s.
Proof.
  intros Hstart. revert b. induction s as [|c s IH]; intros b Hnone.
  - cbn [replace_go]. rewrite Hstart; [done|].
    simpl in Hnone. by apply orb_false_iff in Hnone as [? _].
  - apply includes_cons_false in Hnone as [Hhere Hnone].
    cbn [replace_go]. rewrite (Hstart _ _ Hhere). by rewrite IH.
Qed.

Lemma lit_needs_start (t : string) (b : option ascii) (s : string) :
  startsWith t s = false → match_at (Lit t) b s = None.
Proof.
  intros Hstart. destruct (match_at (Lit t) b s) as [m|] eqn:Hm; [|done].
  unfold match_at in Hm. cbn [exec] in Hm.
  apply lit_inv in Hm as (m' & (Hrest & _) & _). simpl in Hrest.
  by rewrite Hrest, startsWith_app in Hstart.
Qed.

Lemma result_var_needs_start (b : option ascii) (s : string) :
  startsWith "__" s = false → match_at re_result_var b s = None.
Proof.
  intros Hstart. destruct (match_at re_result_var b s) as [m|] eqn:Hm; [|done].
  unfold match_at, re_result_var in Hm. cbn [exec] in Hm.
  destruct (xorb _ _); [|done].
  apply lit_inv in Hm as (m' & (Hrest & _) & _). simpl in Hrest.
  by rewrite Hrest, startsWith_app in Hstart.
Qed.

(** X3: code that holds neither [yytext], nor [__], nor [return] is left as
    it is by [_scopeVars], whatever the terminal map holds. *)
Theorem scopeVars_untouched (terminalsMap : gmap string nat) (code : string) :
  includes code "yytext" = false →
  includes code "__" = false →
  includes code "return" = false →
  _scopeVars terminalsMap code = code.
Proof.
  intros Hyytext Hresult Hreturn. unfold _scopeVars, scopeNames, replace_all.
  rewrite (replace_go_untouched re_yytext _ "yytext") by
    (done || apply lit_needs_start).
  rewrite (replace_go_untouched re_result_var _ "__") by
    (done || apply result_var_needs_start).
  apply (replace_go_untouched tokenRe _ "return"); [|done].
  intros b' s'. apply tokenRe_no_return.
Qed.

Lemma scopeVars_untouched_witness :
  _scopeVars {["a" := 1]} "/* skip */ x = y_1 + 2;" = "/* skip */ x = y_1 + 2;".
Proof.
  apply scopeVars_untouched; vm_compute; reflexivity.
Defined.

(** ** Keys of a map of the target language *)

Lemma double_quote_at (b : option ascii) (c : ascii) (s : string) :
  match_at re_double_quote b (String c s)
  = if Ascii.eqb "034"%char c
    then Some {| consumed := 1; before := Some c; rest := s; group1 := None |}
    else None.
Proof.
  unfold match_at, re_double_quote, dq. cbn [exec lit rest].
  by destruct (Ascii.eqb "034"%char c).
Qed.

Lemma escape_go_before (cb : string → option string → string)
  (skip : nat) (b b' : option ascii) (s : string) :
  replace_go re_double_quote cb skip b s
  = replace_go re_double_quote cb skip b' s.
Proof.
  destruct s as [|c s], skip as [|n]; try done; cbn [replace_go];
    by rewrite !double_quote_at.
Qed.

Lemma escapeKey_cons (c : ascii) (k : string) :
  escapeKey (String c k) = escapeChar c +:+ escapeKey k.
Proof.
  unfold escapeKey, replace_all, escapeChar. cbn [replace_go].
  rewrite double_quote_at. destruct (Ascii.eqb "034"%char c).
  - cbn [consumed]. f_equal. apply escape_go_before.
  - rewrite str_app_cons, str_app_nil_l. f_equal. apply escape_go_before.
Qed.

Lemma escapeKey_first (k : string) : char0 (escapeKey k) ≠ Some "034"%char.
Proof.
  destruct k as [|c k]; [done|]. rewrite escapeKey_cons. unfold escapeChar.
  destruct (Ascii.eqb "034"%char c) eqn:Hc; [done|].
  rewrite str_app_cons. simpl. intros [= ->]. by rewrite Ascii.eqb_refl in Hc.
Qed.

(** X4: [_toCppMap] writes a key character by character, a backslash put
    before every double quote and nothing else changed; the key is read
    back from the escaped key, so different keys stay different, and a key
    without a double quote is written as it is. *)
Theorem escapeKey_round_trip (k : string) :
  unescapeKey (escapeKey k) = k
  ∧ escapeKey k = concat_str (escapeChar <$> String.list_ascii_of_string k)
  ∧ (has_char "034"%char k = false → escapeKey k = k).
Proof.
  split_and!.
  - induction k as [|c k IH]; [done|]. rewrite escapeKey_cons.
    unfold escapeChar. destruct (Ascii.eqb "034"%char c) eqn:Hc.
    + apply Ascii.eqb_eq in Hc as <-.
      change ("\" +:+ dq) with (String "\"%char (String "034"%char "")).
      rewrite !str_app_cons, str_app_nil_l. cbn [unescapeKey].
      rewrite !Ascii.eqb_refl. cbn [andb]. by rewrite IH.
    + rewrite str_app_cons, str_app_nil_l. cbn [unescapeKey].
      pose proof (escapeKey_first k) as Hfirst.
      destruct (escapeKey k) as [|c' s''] eqn:Hk.
      * simpl in IH. by rewrite <-IH.
      * assert (Ascii.eqb c' "034"%char = false) as ->.
        { apply Ascii.eqb_neq. intros ->. by apply Hfirst. }
        rewrite andb_false_r. by rewrite IH.
  - induction k as [|c k IH]; [done|].
    rewrite escapeKey_cons. cbn [String.list_ascii_of_string fmap list_fmap concat_str].
    by rewrite IH.
  - induction k as [|c k IH]; [done|]. simpl.
    intros [Hc Hk]%orb_false_iff. rewrite escapeKey_cons, (IH Hk).
    unfold escapeChar. rewrite Ascii.eqb_sym, Hc. reflexivity.
Qed.

Lemma escapeKey_round_trip_witness :
  escapeKey "TokenizerState::INITIAL" = "TokenizerState::INITIAL".
Proof.
  destruct (escapeKey_round_trip "TokenizerState::INITIAL") as (_ & _ & H).
  apply H. vm_compute. reflexivity.
Defined.

(** ** The tokens table *)

(** X5: [generateTokensTable] writes the slot [TOKENS] and no other slot;
    the text is a map literal with the type name [string] that holds one
    pair for each terminal, in the order of the token table, the key being
    [Number(token)] and the value the code between double quotes. *)
Theorem tokens_table_text (js_Number : string → string) (this : Generator) :
  generateTokensTable js_Number this
  = Ok ()
      (with_slots
         (<["TOKENS" :=
              "string {" +:+
              join ", "
                ((λ terminal,
                    "{" +:+ js_Number (escapeKey terminal.1) +:+ ", " +:+
                    (dq +:+ pretty terminal.2 +:+ dq) +:+ "}")
                 <$> _tokens this)
              +:+ "}"]>
            (slots this))
         this).
Proof.
  unfold generateTokensTable, mbind, Gen_bind, get_this, writeData.
  rewrite toCppMap_entries, <-list_fmap_compose. reflexivity.
Qed.

(** ** Rows of the parsing table *)

Lemma obj_set_keys {V} (k : string) (v : V) (o : list (string * V)) :
  k ∈ obj_keys o → obj_keys (obj_set k v o) = obj_keys o.
Proof.
  induction o as [|[k' v'] o IH]; intros Hin.
  - by apply elem_of_nil in Hin.
  - simpl. destruct (decide (k' = k)) as [->|Hne]; [done|].
    unfold obj_keys in *. rewrite !fmap_cons. f_equal. apply IH.
    rewrite fmap_cons in Hin. apply elem_of_cons in Hin as [->|Hin]; done.
Qed.

Lemma encodeRow_keys (row : Row) : obj_keys (encodeRow row) = obj_keys row.
Proof.
  unfold encodeRow.
  assert (∀ entries acc : Row,
            obj_keys entries ⊆ obj_keys acc →
            obj_keys
              (foldl (λ row '(key, entry),
                        obj_set key (VStr (encodeEntry entry)) row)
                 acc entries)
            = obj_keys acc) as Hfold.
  { induction entries as [|[key entry] entries IH]; intros acc Hsub; [done|].
    cbn [foldl]. rewrite IH.
    - apply obj_set_keys, Hsub. left.
    - rewrite obj_set_keys by (apply Hsub; left).
      intros k Hk. apply Hsub. by right. }
  by apply Hfold.
Qed.

Lemma store_fold_length (table : list (string * nat)) (store : list Row) :
  length
    (foldl (λ store st, <[st.2 := encodeRow (store !!! st.2)]> store)
       store table)
  = length store.
Proof.
  revert store. induction table as [|st table IH]; intros store; [done|].
  cbn [foldl]. by rewrite IH, length_insert.
Qed.

Lemma store_fold_keys (table : list (string * nat)) (store : list Row)
  (place : nat) (row : Row) :
  store !! place = Some row →
  ∃ row',
    foldl (λ store st, <[st.2 := encodeRow (store !!! st.2)]> store)
      store table !! place = Some row'
    ∧ obj_keys row' = obj_keys row.
Proof.
  revert store row. induction table as [|[state place'] table IH];
    intros store row Hrow.
  - by exists row.
  - cbn [foldl snd]. destruct (decide (place' = place)) as [->|Hne].
    + destruct (IH (<[place := encodeRow (store !!! place)]> store)
                  (encodeRow row)) as (row' & Hrow' & Hkeys).
      { rewrite list_lookup_insert_eq by (by eapply lookup_lt_Some).
        by rewrite (list_lookup_total_correct _ _ _ Hrow). }
      exists row'. split; [done|]. by rewrite Hkeys, encodeRow_keys.
    + apply IH. by rewrite list_lookup_insert_ne.
Qed.

Lemma buildTable_store (js_Number : string → string)
  (table : list (string * nat)) (entries : list string) (store : list Row) :
  ∃ entries',
    foldl
      (λ '(entries, store) '(state, place),
         let row := encodeRow (store !!! place) in
         let store := <[place := row]> store in
         (entries ++ [_toCppMap js_Number row "Row" KeyNumber ValRaw], store))
      (entries, store) table
    = (entries',
       foldl (λ store st, <[st.2 := encodeRow (store !!! st.2)]> store)
         store table)
    ∧ length entries' = length entries + length table.
Proof.
  revert entries store.
  induction table as [|[state place] table IH]; intros entries store.
  - exists entries. split; [done|]. simpl. lia.
  - cbn [foldl].
    destruct (IH (entries ++
                  [_toCppMap js_Number (encodeRow (store !!! place)) "Row"
                     KeyNumber ValRaw])
                (<[place := encodeRow (store !!! place)]> store))
      as (entries' & Hfold & Hlen).
    exists entries'. split; [exact Hfold|].
    rewrite Hlen, length_app. simpl. lia.
Qed.

(** X6: whatever the table and the store of rows are, [_buildTable] gives a
    text, writes the number of states into [ROWS_COUNT] and no other slot,
    keeps the number of rows of the store, leaves every row that no state
    holds as it was, and keeps the keys of every row, in their order. *)
Theorem buildTable_keeps_rows_and_keys (js_Number : string → string)
  (table : list (string * nat)) (store : list Row) (this : Generator) :
  ∃ text store',
    _buildTable js_Number table store this
    = Ok (text, store')
        (with_slots (<["ROWS_COUNT" := pretty (length table)]> (slots this))
           this)
    ∧ length store' = length store
    ∧ (∀ place, place ∉ table.*2 → store' !! place = store !! place)
    ∧ (∀ place row,
         store !! place = Some row →
         ∃ row', store' !! place = Some row' ∧ obj_keys row' = obj_keys row).
Proof.
  destruct (buildTable_store js_Number table [] store)
    as (entries & Hfold & Hlen).
  exists ("{" +:+ nl +:+ "    " +:+
          join ("," +:+ nl +:+ "    ") entries +:+ nl +:+ "}").
  exists (foldl (λ store st, <[st.2 := encodeRow (store !!! st.2)]> store)
            store table).
  split_and!.
  - unfold _buildTable. cbv zeta in Hfold. rewrite Hfold.
    unfold mbind, Gen_bind, writeData, mret, Gen_ret. rewrite Hlen.
    reflexivity.
  - apply store_fold_length.
  - intros place Hplace. by apply store_fold_other.
  - intros place row Hrow. by apply store_fold_keys.
Qed.

(** ** The declaration of the value type *)

Lemma last_char_cons (c : ascii) (s : string) : last_char (String c s) ≠ None.
Proof. revert c. induction s as [|a s IH]; intros c; [done|]. apply (IH a). Qed.

Lemma before_after_last (pre : string) : before_after None pre = last_char pre.
Proof.
  assert (∀ b c s, before_after b (String c s) = last_char (String c s)) as H.
  { intros b c s. revert b c. induction s as [|a s IH]; intros b c; [done|].
    apply (IH (Some c) a). }
  destruct pre as [|c pre]; [done|]. apply H.
Qed.

Lemma run_over_before (w : string) (m : mstate) :
  before (run_over w m) = before_after (before m) w.
Proof. revert m. induction w as [|c w IH]; intros m; [done|]. simpl. by rewrite IH. Qed.

Lemma lit_before (t : string) (m : mstate) (k : mstate → option mstate)
  (r : mstate) :
  lit t m k = Some r →
  ∃ m', moved m t m' ∧ before m' = before_after (before m) t ∧ k m' = Some r.
Proof.
  revert m. induction t as [|a t IH]; intros m H; simpl in H.
  - exists m. split_and!; [apply moved_refl|done|done].
  - destruct (rest m) as [|c s'] eqn:Hrest; [done|].
    destruct (Ascii.eqb a c) eqn:Hac; [|done]. apply Ascii.eqb_eq in Hac as ->.
    destruct (IH _ H) as (m' & Hm & Hb & Hk). exists m'. split_and!; [|done|done].
    apply (moved_trans _ _ _ (String c "") t (moved_step m c s' Hrest) Hm).
Qed.

Lemma word_not_space (c : ascii) : js_word c = true → js_space c = false.
Proof. by destruct c as [[] [] [] [] [] [] [] []]. Qed.

Lemma plus_inv (p : ascii → bool) (m : mstate) (k : mstate → option mstate)
  (r : mstate) :
  exec (Plus p) m k = Some r →
  ∃ w m', w ≠ "" ∧ all_str p w = true ∧ moved m w m' ∧ k m' = Some r.
Proof.
  cbn [exec]. intros (c & m1 & Hc & Hm1 & H)%one_inv.
  apply star_greedy_inv in H as (w & m2 & Hw & Hm2 & H); [|done].
  exists (String c w), m2. split_and!; [done| |by eapply (moved_trans _ _ _ (String c ""))|done].
  simpl. by rewrite Hc.
Qed.

Lemma plus_run (p : ascii → bool) (w s : string) (m : mstate)
  (k : mstate → option mstate) (r : mstate) :
  w ≠ "" → all_str p w = true →
  (∀ c, char0 s = Some c → p c = false) →
  rest m = w +:+ s →
  k (run_over w m) = Some r →
  exec (Plus p) m k = Some r.
Proof.
  intros Hne Hall Hstop Hrest Hk. destruct w as [|c w]; [done|].
  simpl in Hall. apply andb_true_iff in Hall as [Hc Hall].
  cbn [exec]. rewrite str_app_cons in Hrest.
  rewrite (one_run p c _ m _ Hrest Hc).
  assert (rest (run_over (String c "") m) = w +:+ s) as Hrest'.
  { simpl. by rewrite Hrest. }
  rewrite Hrest'. by apply star_greedy_run.
Qed.

(** The first alternative of the pattern, behind its word boundary. *)
Lemma value_keyword_inv (m r : mstate) :
  exec (Seq (Alt (Lit "using") (Alt (Lit "class") (Lit "struct")))
          (Seq (Plus js_space) (Seq (Lit "Value") WordB))) m Some = Some r →
  ∃ kw w post,
    rest m = kw +:+ w +:+ "Value" +:+ post
    ∧ kw ∈ ["using"; "class"; "struct"]
    ∧ w ≠ "" ∧ all_str js_space w = true
    ∧ word_opt (char0 post) = false.
Proof.
  intros H.
  assert (∃ kw m1,
            kw ∈ ["using"; "class"; "struct"] ∧ moved m kw m1
            ∧ exec (Seq (Plus js_space) (Seq (Lit "Value") WordB)) m1 Some
              = Some r) as (kw & m1 & Hkw & Hm1 & Htail).
  { cbn [exec] in H. cbn [exec].
    destruct (lit "using" m _) as [r1|] eqn:H1.
    - inversion H; subst r1. apply lit_inv in H1 as (m1 & Hm1 & H1).
      exists "using", m1. split_and!; [|done|done].
      apply list_elem_of_here.
    - destruct (lit "class" m _) as [r2|] eqn:H2.
      + inversion H; subst r2. apply lit_inv in H2 as (m1 & Hm1 & H2).
        exists "class", m1. split_and!; [|done|done].
        apply list_elem_of_further, list_elem_of_here.
      + apply lit_inv in H as (m1 & Hm1 & H).
        exists "struct", m1. split_and!; [|done|done].
        do 2 apply list_elem_of_further. apply list_elem_of_here. }
  change (exec (Plus js_space) m1
            (λ m', exec (Seq (Lit "Value") WordB) m' Some) = Some r) in Htail.
  apply plus_inv in Htail as (w & m2 & Hne & Hw & Hm2 & Htail).
  cbn [exec] in Htail.
  apply lit_before in Htail as (m3 & Hm3 & Hb & Htail).
  simpl in Hb. rewrite Hb in Htail.
  destruct (word_opt (char0 (rest m3))) eqn:Hpost; [done|].
  exists kw, w, (rest m3). split_and!; [|done..].
  destruct Hm1 as (-> & _), Hm2 as (-> & _), Hm3 as (-> & _). done.
Qed.

Lemma value_keyword_run (m : mstate) (kw w post : string) :
  rest m = kw +:+ w +:+ "Value" +:+ post →
  kw ∈ ["using"; "class"; "struct"] →
  w ≠ "" → all_str js_space w = true →
  word_opt (char0 post) = false →
  ∃ r,
    exec (Seq (Alt (Lit "using") (Alt (Lit "class") (Lit "struct")))
            (Seq (Plus js_space) (Seq (Lit "Value") WordB))) m Some = Some r.
Proof.
  intros Hrest Hkw Hne Hw Hpost.
  assert (∃ r, exec (Seq (Plus js_space) (Seq (Lit "Value") WordB))
                 (run_over kw m) Some = Some r) as (r & Htail).
  { exists (run_over "Value" (run_over w (run_over kw m))).
    change (exec (Plus js_space) (run_over kw m)
              (λ m', exec (Seq (Lit "Value") WordB) m' Some)
            = Some (run_over "Value" (run_over w (run_over kw m)))).
    apply (plus_run js_space w ("Value" +:+ post)); [done|done| | |].
    - by intros c [= <-].
    - by apply (run_over_rest kw).
    - cbn [exec].
      assert (rest (run_over w (run_over kw m)) = "Value" +:+ post) as Hr.
      { apply (run_over_rest w). by apply (run_over_rest kw). }
      rewrite (lit_run "Value" post) by done.
      rewrite run_over_before, (run_over_rest "Value" post) by done.
      simpl. by rewrite Hpost. }
  cbn [exec]. cbn [exec] in Htail.
  repeat (apply elem_of_cons in Hkw as [->|Hkw]).
  - exists r. by rewrite (lit_run "using" _ m _ Hrest), Htail.
  - destruct (lit "using" m _) as [r1|]; [by exists r1|].
    exists r. by rewrite (lit_run "class" _ m _ Hrest), Htail.
  - destruct (lit "using" m _) as [r1|]; [by exists r1|].
    destruct (lit "class" m _) as [r2|]; [by exists r2|].
    exists r. by rewrite (lit_run "struct" _ m _ Hrest), Htail.
  - by apply elem_of_nil in Hkw.
Qed.

(** The second alternative of the pattern, behind its word boundary. *)
Lemma value_typedef_inv (m r : mstate) :
  exec (Seq (Lit "typedef")
          (Seq (Plus js_space)
             (Seq (Plus js_word) (Seq (Plus js_space) (Lit "Value")))))
    m Some = Some r →
  ∃ w1 name w2 post,
    rest m = "typedef" +:+ w1 +:+ name +:+ w2 +:+ "Value" +:+ post
    ∧ w1 ≠ "" ∧ all_str js_space w1 = true
    ∧ name ≠ "" ∧ all_str js_word name = true
    ∧ w2 ≠ "" ∧ all_str js_space w2 = true.
Proof.
  intros H. cbn [exec] in H.
  apply lit_inv in H as (m1 & Hm1 & H).
  change (exec (Plus js_space) m1
            (λ m', exec (Plus js_word) m'
                     (λ m'', exec (Plus js_space) m''
                               (λ m3, lit "Value" m3 Some))) = Some r) in H.
  apply plus_inv in H as (w1 & m2 & Hne1 & Hw1 & Hm2 & H).
  apply plus_inv in H as (name & m3 & Hne & Hname & Hm3 & H).
  apply plus_inv in H as (w2 & m4 & Hne2 & Hw2 & Hm4 & H).
  apply lit_inv in H as (m5 & Hm5 & _).
  exists w1, name, w2, (rest m5). split_and!; [|done..].
  destruct Hm1 as (-> & _), Hm2 as (-> & _), Hm3 as (-> & _),
    Hm4 as (-> & _), Hm5 as (-> & _). done.
Qed.

Lemma value_typedef_run (m : mstate) (w1 name w2 post : string) :
  rest m = "typedef" +:+ w1 +:+ name +:+ w2 +:+ "Value" +:+ post →
  w1 ≠ "" → all_str js_space w1 = true →
  name ≠ "" → all_str js_word name = true →
  w2 ≠ "" → all_str js_space w2 = true →
  ∃ r,
    exec (Seq (Lit "typedef")
            (Seq (Plus js_space)
               (Seq (Plus js_word) (Seq (Plus js_space) (Lit "Value")))))
      m Some = Some r.
Proof.
  intros Hrest Hne1 Hw1 Hne Hname Hne2 Hw2.
  set (m1 := run_over "typedef" m).
  set (m2 := run_over w1 m1).
  set (m3 := run_over name m2).
  set (m4 := run_over w2 m3).
  assert (rest m1 = w1 +:+ name +:+ w2 +:+ "Value" +:+ post) as Hr1
    by (by apply (run_over_rest "typedef")).
  assert (rest m2 = name +:+ w2 +:+ "Value" +:+ post) as Hr2
    by (by apply (run_over_rest w1)).
  assert (rest m3 = w2 +:+ "Value" +:+ post) as Hr3
    by (by apply (run_over_rest name)).
  assert (rest m4 = "Value" +:+ post) as Hr4
    by (by apply (run_over_rest w2)).
  exists (run_over "Value" m4). cbn [exec].
  rewrite (lit_run "typedef" _ m _ Hrest). fold m1.
  change (exec (Plus js_space) m1
            (λ m', exec (Plus js_word) m'
                     (λ m'', exec (Plus js_space) m''
                               (λ m3, lit "Value" m3 Some)))
          = Some (run_over "Value" m4)).
  apply (plus_run js_space w1 (name +:+ w2 +:+ "Value" +:+ post));
    [done|done| |done|].
  { destruct name as [|c name]; [done|]. intros c' [= <-].
    simpl in Hname. apply andb_true_iff in Hname as [Hc _].
    by apply word_not_space. }
  fold m2.
  apply (plus_run js_word name (w2 +:+ "Value" +:+ post)); [done|done| |done|].
  { destruct w2 as [|c w2]; [done|]. intros c' [= <-].
    simpl in Hw2. apply andb_true_iff in Hw2 as [Hc _].
    destruct (js_word c) eqn:Hword; [|done].
    apply word_not_space in Hword. congruence. }
  fold m3.
  apply (plus_run js_space w2 ("Value" +:+ post)); [done|done| |done|].
  { by intros c [= <-]. }
  fold m4. by rewrite (lit_run "Value" post).
Qed.

Lemma keyword_word (kw : string) :
  kw ∈ ["using"; "class"; "struct"] → word_opt (char0 kw) = true.
Proof.
  intros Hkw. repeat (apply elem_of_cons in Hkw as [->|Hkw]); try done.
  by apply elem_of_nil in Hkw.
Qed.

Lemma word_boundary_keyword (b : option ascii) (s kw t : string) :
  s = kw +:+ t → word_opt (char0 kw) = true →
  xorb (word_opt b) (word_opt (char0 s)) = negb (word_opt b).
Proof.
  intros -> Hkw. destruct kw as [|c kw]; [done|].
  rewrite str_app_cons. simpl in *. rewrite Hkw. by destruct (word_opt b).
Qed.

Lemma value_type_at (b : option ascii) (s : string) :
  (∃ m, match_at re_value_type b s = Some m)
  ↔ word_opt b = false
    ∧ ((∃ kw w post,
          s = kw +:+ w +:+ "Value" +:+ post
          ∧ kw ∈ ["using"; "class"; "struct"]
          ∧ w ≠ "" ∧ all_str js_space w = true
          ∧ word_opt (char0 post) = false)
       ∨ (∃ w1 name w2 post,
            s = "typedef" +:+ w1 +:+ name +:+ w2 +:+ "Value" +:+ post
            ∧ w1 ≠ "" ∧ all_str js_space w1 = true
            ∧ name ≠ "" ∧ all_str js_word name = true
            ∧ w2 ≠ "" ∧ all_str js_space w2 = true)).
Proof.
  unfold match_at, re_value_type.
  set (m0 := {| consumed := 0; before := b; rest := s; group1 := None |}).
  set (r1 := Seq (Alt (Lit "using") (Alt (Lit "class") (Lit "struct")))
               (Seq (Plus js_space) (Seq (Lit "Value") WordB))).
  set (r2 := Seq (Lit "typedef")
               (Seq (Plus js_space)
                  (Seq (Plus js_word) (Seq (Plus js_space) (Lit "Value"))))).
  change (exec (Alt (Seq WordB r1) (Seq WordB r2)) m0 Some)
    with (match
            (if xorb (word_opt b) (word_opt (char0 s))
             then exec r1 m0 Some else None)
          with
          | Some r => Some r
          | None =>
              if xorb (word_opt b) (word_opt (char0 s))
              then exec r2 m0 Some else None
          end).
  split.
  - intros (m & H).
    destruct (xorb (word_opt b) (word_opt (char0 s))) eqn:Hb; [|done].
    destruct (exec r1 m0 Some) as [r|] eqn:H1.
    + apply value_keyword_inv in H1
        as (kw & w & post & Hs & Hkw & Hne & Hw & Hpost).
      simpl in Hs.
      rewrite (word_boundary_keyword b s kw _ Hs) in Hb
        by by apply keyword_word.
      split; [by destruct (word_opt b)|]. left. by exists kw, w, post.
    + apply value_typedef_inv in H
        as (w1 & name & w2 & post & Hs & Hrest).
      simpl in Hs.
      rewrite (word_boundary_keyword b s "typedef" _ Hs) in Hb by done.
      split; [by destruct (word_opt b)|]. right. by exists w1, name, w2, post.
  - intros (Hb & [(kw & w & post & Hs & Hkw & Hne & Hw & Hpost)
                 |(w1 & name & w2 & post & Hs & Hrest)]).
    + rewrite (word_boundary_keyword b s kw _ Hs), Hb
        by by apply keyword_word.
      cbn [negb].
      destruct (value_keyword_run m0 kw w post Hs Hkw Hne Hw Hpost)
        as (r & Hr).
      change (exec r1 m0 Some = Some r) in Hr. rewrite Hr. by exists r.
    + rewrite (word_boundary_keyword b s "typedef" _ Hs), Hb by done.
      cbn [negb]. destruct (exec r1 m0 Some) as [r|]; [by exists r|].
      destruct Hrest as (? & ? & ? & ? & ? & ?).
      by apply (value_typedef_run m0 w1 name w2 post).
Qed.

Lemma value_type_test (text : string) :
  test re_value_type text = true ↔ declares_Value text.
Proof.
  unfold test, declares_Value. split.
  - intros (pre & s' & m & -> & Hm)%search_inv.
    rewrite before_after_last in Hm.
    destruct (proj1 (value_type_at _ s') (ex_intro _ m Hm))
      as (Hb & [(kw & w & post & -> & Hrest)
               |(w1 & name & w2 & post & -> & Hrest)]).
    + left. exists pre, kw, w, post.
      destruct Hrest as (? & ? & ? & ?). by split_and!.
    + right. exists pre, w1, name, w2, post.
      destruct Hrest as (? & ? & ? & ? & ? & ?). by split_and!.
  - intros [(pre & kw & w & post & -> & Hkw & Hb & Hrest)
           |(pre & w1 & name & w2 & post & -> & Hb & Hrest)].
    + destruct (proj2 (value_type_at (before_after None pre)
                         (kw +:+ w +:+ "Value" +:+ post))) as (m & Hm).
      { rewrite before_after_last. split; [done|]. left.
        by exists kw, w, post. }
      by eapply search_found.
    + destruct (proj2 (value_type_at (before_after None pre)
                         ("typedef" +:+ w1 +:+ name +:+ w2 +:+ "Value"
                          +:+ post))) as (m & Hm).
      { rewrite before_after_last. split; [done|]. right.
        by exists w1, name, w2, post. }
      by eapply search_found.
Qed.

Lemma declares_Value_includes (text : string) :
  declares_Value text → includes text "Value" = true.
Proof.
  intros [(pre & kw & w & post & -> & _)
         |(pre & w1 & name & w2 & post & -> & _)].
  - do 3 apply includes_app_r. apply includes_startsWith, startsWith_app.
  - do 5 apply includes_app_r. apply includes_startsWith, startsWith_app.
Qed.

(** X7: [generateModuleInclude] goes through exactly when the module include
    declares the type [Value]: it then writes the two hook calls and the
    module include, and no other slot, a hook call being empty unless the
    module include holds the header of the hook. It throws in every other
    case, so for every module include that does not hold the word [Value],
    and then writes nothing. *)
Theorem module_include_outcome (bold : string → string) (this : Generator) :
  let moduleInclude := getModuleInclude (_grammar this) in
  (declares_Value moduleInclude →
   generateModuleInclude bold this
   = Ok ()
       (with_slots
          (<["MODULE_INCLUDE" := moduleInclude]>
             (<["ON_PARSE_END_CALL" :=
                  if includes moduleInclude "void onParseEnd"
                  then "onParseEnd(result);" else ""]>
                (<["ON_PARSE_BEGIN_CALL" :=
                     if includes moduleInclude "void onParseBegin"
                     then "onParseBegin(str);" else ""]>
                   (slots this))))
          this))
  ∧ (¬ declares_Value moduleInclude →
     generateModuleInclude bold this = Throw (value_type_message bold) this)
  ∧ (includes moduleInclude "Value" = false → ¬ declares_Value moduleInclude).
Proof.
  intros moduleInclude. split_and!.
  - intros Hdecl%value_type_test.
    unfold generateModuleInclude, mbind, Gen_bind, get_this.
    fold moduleInclude. by rewrite Hdecl.
  - intros Hnone.
    unfold generateModuleInclude, mbind, Gen_bind, get_this.
    fold moduleInclude.
    destruct (test re_value_type moduleInclude) eqn:Htest; [|done].
    by apply value_type_test in Htest.
  - intros Hnone Hdecl%declares_Value_includes. congruence.
Qed.

Lemma module_include_outcome_witness :
  generateModuleInclude (λ text, text) example_generator
  = Ok ()
      (with_slots
         {["MODULE_INCLUDE" := "using Value = int;";
           "ON_PARSE_END_CALL" := ""; "ON_PARSE_BEGIN_CALL" := ""]}
         example_generator)
  ∧ generateModuleInclude (λ text, text) generator_without_Value
    = Throw (value_type_message (λ text, text)) generator_without_Value.
Proof.
  split.
  - apply (module_include_outcome (λ text, text) example_generator).
    left. exists "", "using", " ", " = int;".
    split_and!; [reflexivity|apply list_elem_of_here|reflexivity|done
                |reflexivity|reflexivity].
  - destruct (module_include_outcome (λ text, text) generator_without_Value)
      as (_ & Hthrow & Habsent).
    apply Hthrow, Habsent. vm_compute. reflexivity.
Defined.

(** ** Declarations of the handlers *)

Lemma generateHandlers_lookup (handlers : list Handler)
  (name returnType : string) (i : nat) (h : Handler) :
  handlers !! i = Some h →
  _generateHandlers handlers name returnType !! i
  = Some (handlerDeclaration returnType name (i + 1) h).
Proof.
  intros Hi. unfold _generateHandlers. by rewrite list_lookup_imap, Hi.
Qed.

Lemma generateHandlers_app (handlers more : list Handler)
  (name returnType : string) :
  _generateHandlers (handlers ++ more) name returnType
  = _generateHandlers handlers name returnType ++
    imap (λ i, handlerDeclaration returnType name (length handlers + i + 1))
      more.
Proof. unfold _generateHandlers. by rewrite imap_app. Qed.

Lemma generateHandlers_length (handlers : list Handler)
  (name returnType : string) :
  length (_generateHandlers handlers name returnType) = length handlers.
Proof. unfold _generateHandlers. by rewrite length_imap. Qed.

(** X8: the reference [buildSemanticAction] gives for a production with a
    semantic action names the declaration that [generateProductionHandlers]
    then writes for the handler stored: the declaration with that number is
    a [void] function of the parser whose body is the action of the stored
    handler. The handlers stored before keep the declarations they had. *)
Theorem handler_reference_declared (this : Generator)
  (production : Production) (raw : string) :
  getSemanticActionCode production = Some raw → raw ≠ "" →
  ∃ n handler this1 this2 declarations,
    buildSemanticAction production this
    = Ok (Some (dq +:+ "_handler" +:+ pretty n +:+ dq)) this1
    ∧ n = length (_productionHandlers this) + 1
    ∧ _productionHandlers this1 = _productionHandlers this ++ [handler]
    ∧ generateProductionHandlers this1 = Ok () this2
    ∧ slots this2 !! "PRODUCTION_HANDLERS"
      = Some (join (nl +:+ nl) declarations)
    ∧ length declarations = n
    ∧ declarations !! (n - 1)
      = Some ("void _handler" +:+ pretty n +:+ "(yyparse& parser) {" +:+
              nl +:+ action handler +:+ nl +:+ "}")
    ∧ (∀ i, i < n - 1 →
         declarations !! i
         = _generateHandlers (_productionHandlers this) "_handler" "void"
             !! i).
Proof.
  intros Hraw Hne.
  pose proof (buildSemanticAction_run this production raw Hraw Hne) as Hrun.
  cbv zeta in Hrun.
  set (handler :=
         {| args := "yyparse& parser";
            action :=
              _generateHandlerEpilogue production
                (_generateHandlerPrologue production
                   (_actionFromHandler (_terminalsMap this) raw)
                   (_getParamsInfo (_grammar this) production
                      (_actionFromHandler (_terminalsMap this) raw))) |})
    in Hrun.
  eexists (length (_productionHandlers this) + 1), handler, _, _,
    (_generateHandlers (_productionHandlers this ++ [handler])
       "_handler" "void").
  split_and!.
  - exact Hrun.
  - done.
  - done.
  - unfold generateProductionHandlers, mbind, Gen_bind, get_this, writeData.
    reflexivity.
  - cbn [slots with_slots _productionHandlers with_productionHandlers].
    by rewrite lookup_insert_eq.
  - rewrite generateHandlers_length, length_app. simpl. lia.
  - replace (length (_productionHandlers this) + 1 - 1)
      with (length (_productionHandlers this)) by lia.
    rewrite (generateHandlers_lookup _ _ _ _ handler).
    + done.
    + rewrite lookup_app_r by lia. by rewrite Nat.sub_diag.
  - intros i Hi. rewrite generateHandlers_app.
    rewrite lookup_app_l; [done|]. rewrite generateHandlers_length. lia.
Qed.

Lemma handler_reference_declared_witness :
  ∃ n handler this1 this2 (declarations : list string),
    buildSemanticAction production_L list_generator
    = Ok (Some (dq +:+ "_handler" +:+ pretty n +:+ dq)) this1
    ∧ n = 1
    ∧ _productionHandlers this1 = [handler]
    ∧ generateProductionHandlers this1 = Ok () this2
    ∧ declarations !! 0
      = Some ("void _handler" +:+ pretty n +:+ "(yyparse& parser) {" +:+
              nl +:+ action handler +:+ nl +:+ "}").
Proof.
  destruct (handler_reference_declared list_generator production_L
              "__ = _1 + _3")
    as (n & handler & this1 & this2 & declarations & Hbuild & Hn & Hstored
        & Hdeclare & _ & _ & Hdeclaration & _);
    [reflexivity|discriminate|].
  exists n, handler, this1, this2, declarations.
  simpl in Hn. subst n. by split_and!.
Defined.

(** X9: the entry [generateLexRules] writes for a lexical rule names the
    declaration that [generateLexHandlers] then writes for the handler of
    that rule: the entry of the rule refers to [_lexRule<n>], and the
    declaration with the number [n] is the function of the tokenizer and
    the matched text whose body is the rewritten handler of the rule. *)
Theorem lex_rule_reference_declared (this : Generator) :
  let rules := getRules (getLexGrammar (_grammar this)) in
  ∃ this1 this2 entries declarations,
    generateLexRules this = Ok () this1
    ∧ generateLexHandlers this1 = Ok () this2
    ∧ slots this2 !! "LEX_RULES"
      = Some ("{{" +:+ nl +:+ "  " +:+ join ("," +:+ nl +:+ "  ") entries +:+
              nl +:+ "}}")
    ∧ slots this2 !! "LEX_RULE_HANDLERS"
      = Some (join (nl +:+ nl) declarations)
    ∧ length entries = length rules
    ∧ length declarations = length (_lexHandlers this) + length rules
    ∧ ∀ i lexRule,
        rules !! i = Some lexRule →
        let n := length (_lexHandlers this) + i + 1 in
        entries !! i = Some (lexRuleEntry n lexRule)
        ∧ declarations !! (n - 1)
          = Some ("inline TokenType _lexRule" +:+ pretty n +:+
                  "(const Tokenizer& tokenizer, const std::string& yytext) {"
                  +:+ nl +:+
                  action (lexHandlerOf (_terminalsMap this) lexRule) +:+
                  nl +:+ "}").
Proof.
  intros rules.
  pose proof (generateLexRules_run this) as Hrun. cbv zeta in Hrun.
  fold rules in Hrun.
  eexists _, _,
    (imap (λ i, lexRuleEntry (length (_lexHandlers this) + i + 1)) rules),
    (_generateHandlers
       (_lexHandlers this ++ (lexHandlerOf (_terminalsMap this) <$> rules))
       "_lexRule" "inline TokenType").
  split_and!.
  - exact Hrun.
  - unfold generateLexHandlers, mbind, Gen_bind, get_this, writeData.
    reflexivity.
  - cbn [slots with_slots with_lexHandlers].
    rewrite lookup_insert_ne by done. by rewrite lookup_insert_eq.
  - cbn [slots with_slots with_lexHandlers _lexHandlers].
    by rewrite lookup_insert_eq.
  - by rewrite length_imap.
  - by rewrite generateHandlers_length, length_app, length_fmap.
  - intros i lexRule Hi n. split.
    + by rewrite list_lookup_imap, Hi.
    + subst n.
      replace (length (_lexHandlers this) + i + 1 - 1)
        with (length (_lexHandlers this) + i) by lia.
      rewrite (generateHandlers_lookup _ _ _ _
                 (lexHandlerOf (_terminalsMap this) lexRule)).
      * done.
      * rewrite lookup_app_r by lia.
        replace (length (_lexHandlers this) + i - length (_lexHandlers this))
          with i by lia.
        by rewrite list_lookup_fmap, Hi.
Qed.

(** ** Positions of a production *)

Lemma startsWith_prefix (p q s : string) :
  startsWith (p +:+ q) s = true → startsWith p s = true.
Proof.
  revert s. induction p as [|a p IH]; intros s; [by destruct s|].
  rewrite str_app_cons. destruct s as [|c s]; [done|]. simpl.
  intros [Hc Hrest]%andb_true_iff. rewrite Hc. by apply IH.
Qed.

Lemma includes_prefix (s p q : string) :
  includes s (p +:+ q) = true → includes s p = true.
Proof.
  induction s as [|c s IH]; simpl.
  - rewrite !orb_false_r. apply startsWith_prefix.
  - intros [Hhere|Hlater]%orb_true_iff; apply orb_true_iff.
    + left. by eapply startsWith_prefix.
    + right. by apply IH.
Qed.

(** X10: a position of the right-hand side counts as used whenever its name
    is a part of the action text, so also when the action only holds a
    longer name that begins with it: [_1] is bound by an action that holds
    [_10]. *)
Theorem position_bound_by_longer_name (grammar : Grammar)
  (production : Production) (action : string) (i : nat) (symbol suffix : string) :
  isEpsilon production = false →
  getRHS production !! i = Some symbol →
  includes action (param_name i +:+ suffix) = true →
  _getParamsInfo grammar production action !! i
  = Some (param_name i,
          {| isUsed := true; isToken := isTokenSymbol grammar symbol |})
  ∧ ∃ lines,
      _generateHandlerPrologue production action
        (_getParamsInfo grammar production action)
      = "// Semantic action prologue." +:+ nl +:+ join nl lines +:+
        nl +:+ nl +:+ action
      ∧ lines !! (length (getRHS production) - 1 - i)
        = Some (pop_statement
                  (if isTokenSymbol grammar symbol
                      || derivesPropagatingToken production
                   then TokensStack else ValuesStack)
                  (Some (param_name i))).
Proof.
  intros Heps Hi Hrest%includes_prefix.
  assert (_getParamsInfo grammar production action !! i
          = Some (param_name i,
                  {| isUsed := true;
                     isToken := isTokenSymbol grammar symbol |})) as Hinfo.
  { rewrite getParamsInfo_entries by done.
    by rewrite list_lookup_imap, Hi, <-Hrest. }
  split; [done|]. eexists. split; [apply generateHandlerPrologue_lines|].
  assert (length (_getParamsInfo grammar production action)
          = length (getRHS production)) as Hlen.
  { rewrite getParamsInfo_entries by done. by rewrite length_imap. }
  apply lookup_lt_Some in Hi as Hlt.
  rewrite list_lookup_fmap, reverse_lookup by lia.
  replace (length (_getParamsInfo grammar production action)
           - S (length (getRHS production) - 1 - i)) with i by lia.
  by rewrite Hinfo.
Qed.

Lemma position_bound_by_longer_name_witness :
  _getParamsInfo list_grammar production_T "__ = _10;" !! 0
  = Some ("_1", {| isUsed := true; isToken := false |}).
Proof.
  destruct (position_bound_by_longer_name list_grammar production_T
              "__ = _10;" 0 "a" "0") as [Hinfo _];
    [reflexivity|reflexivity|vm_compute; reflexivity|].
  exact Hinfo.
Defined.

(** X11: for an epsilon production [_getParamsInfo] gives no position,
    whatever the right-hand side holds, so the handler pops nothing: its
    body is the prologue header, the rewritten action and the one push of
    the epilogue. *)
Theorem epsilon_handler_pops_nothing (this : Generator)
  (production : Production) (raw : string) :
  isEpsilon production = true →
  getSemanticActionCode production = Some raw → raw ≠ "" →
  buildSemanticAction production this
  = Ok (Some (dq +:+ "_handler" +:+
              pretty (length (_productionHandlers this) + 1) +:+ dq))
      (with_productionHandlers
         (_productionHandlers this ++
          [{| args := "yyparse& parser";
              action :=
                "// Semantic action prologue." +:+ nl +:+ nl +:+ nl +:+
                _actionFromHandler (_terminalsMap this) raw +:+ nl +:+ nl +:+
                " // Semantic action epilogue." +:+ nl +:+
                push_statement
                  (if derivesPropagatingToken production
                   then TokensStack else ValuesStack) +:+
                nl |}])
         this).
Proof.
  intros Heps Hraw Hne.
  rewrite (buildSemanticAction_run this production raw Hraw Hne).
  cbv zeta. unfold _getParamsInfo. rewrite Heps.
  unfold _generateHandlerEpilogue, _generateHandlerPrologue.
  cbn [reverse foldl join]. rewrite str_app_nil_l.
  do 4 f_equal. rewrite !str_app_assoc.
  by destruct (derivesPropagatingToken production).
Qed.

Lemma epsilon_handler_pops_nothing_witness :
  ∃ this',
    buildSemanticAction production_E list_generator
    = Ok (Some (dq +:+ "_handler1" +:+ dq)) this'
    ∧ action <$> _productionHandlers this'
      = ["// Semantic action prologue." +:+ nl +:+ nl +:+ nl +:+
         "auto __ = nullptr;" +:+ nl +:+ nl +:+
         " // Semantic action epilogue." +:+ nl +:+ "PUSH_VR();" +:+ nl].
Proof.
  eexists. split.
  - apply (epsilon_handler_pops_nothing list_generator production_E
             "__ = nullptr"); [reflexivity|reflexivity|discriminate].
  - vm_compute. reflexivity.
Defined.

(** ** The parsed result *)


(** ** Rows that states share *)

Lemma buildTable_result (js_Number : string → string)
  (table : list (string * nat)) (store : list Row) (this : Generator) :
  ∃ text,
    _buildTable js_Number table store this
    = Ok (text,
          foldl (λ store st, <[st.2 := encodeRow (store !!! st.2)]> store)
            store table)
        (with_slots (<["ROWS_COUNT" := pretty (length table)]> (slots this))
           this).
Proof.
  destruct (buildTable_store js_Number table [] store)
    as (entries & Hfold & Hlen).
  eexists. unfold _buildTable. cbv zeta in Hfold. rewrite Hfold.
  unfold mbind, Gen_bind, writeData, mret, Gen_ret. rewrite Hlen.
  reflexivity.
Qed.

Lemma store_fold_count (table : list (string * nat)) (store : list Row)
  (place : nat) (row : Row) :
  store !! place = Some row →
  foldl (λ store st, <[st.2 := encodeRow (store !!! st.2)]> store) store table
    !! place
  = Some (Nat.iter (count_occ Nat.eq_dec table.*2 place) encodeRow row).
Proof.
  revert store row. induction table as [|[state place'] table IH];
    intros store row Hrow; [done|].
  cbn [foldl snd fmap list_fmap]. destruct (decide (place' = place)) as [->|Hne].
  - rewrite count_occ_cons_eq by done. rewrite Nat.iter_succ_r.
    apply IH. rewrite list_lookup_insert_eq by (by eapply lookup_lt_Some).
    by rewrite (list_lookup_total_correct _ _ _ Hrow).
  - rewrite count_occ_cons_neq by done.
    apply IH. by rewrite list_lookup_insert_ne.
Qed.

Lemma encodeEntry_opens (entry : jsval) :
  ∃ t, encodeEntry entry = String "{" t.
Proof.
  unfold encodeEntry. repeat case_bool_decide; try destruct (is_text _ _);
    eexists; reflexivity.
Qed.

Lemma encodeEntry_again (entry : jsval) :
  encodeEntry (VStr (encodeEntry entry))
  = "{TE::Transit, " +:+ encodeEntry entry +:+ "}".
Proof.
  destruct (encodeEntry_opens entry) as (t & ->). reflexivity.
Qed.

Lemma encodeRow_iter (k : nat) (row : Row) :
  NoDup (obj_keys row) →
  Nat.iter k encodeRow row
  = (λ entry, (entry.1, Nat.iter k (λ v, VStr (encodeEntry v)) entry.2))
    <$> row.
Proof.
  intros Hnodup. induction k as [|k IH].
  - simpl. rewrite <-(list_fmap_id row) at 1.
    apply list_fmap_ext. by intros i [key entry] _.
  - rewrite Nat.iter_succ, IH, encodeRow_encoded.
    + unfold encodedRow. rewrite <-list_fmap_compose.
      apply list_fmap_ext. by intros i [key entry] _.
    + unfold obj_keys. rewrite <-list_fmap_compose.
      by rewrite (list_fmap_ext _ fst row) by done.
Qed.

(** X13: [_buildTable] encodes a row once for every state that holds it,
    and an encoded cell is encoded again as a transit to the cell: after
    the call, the cells of a row that [k] states of the table hold are
    encoded [k] times, so a row of one state only is encoded once and a row
    of no state is left as it was. *)
Theorem rows_encoded_once_per_state (js_Number : string → string)
  (table : list (string * nat)) (store : list Row) (this : Generator)
  (place : nat) (row : Row) :
  store !! place = Some row →
  NoDup (obj_keys row) →
  let k := count_occ Nat.eq_dec table.*2 place in
  ∃ text store',
    _buildTable js_Number table store this
    = Ok (text, store')
        (with_slots (<["ROWS_COUNT" := pretty (length table)]> (slots this))
           this)
    ∧ store' !! place
      = Some ((λ entry,
                 (entry.1, Nat.iter k (λ v, VStr (encodeEntry v)) entry.2))
              <$> row)
    ∧ ∀ entry,
        encodeEntry (VStr (encodeEntry entry))
        = "{TE::Transit, " +:+ encodeEntry entry +:+ "}".
Proof.
  intros Hrow Hnodup k.
  destruct (buildTable_result js_Number table store this) as (text & Hrun).
  exists text. eexists. split_and!; [exact Hrun| |apply encodeEntry_again].
  rewrite (store_fold_count _ _ _ _ Hrow). by rewrite encodeRow_iter.
Qed.

Lemma rows_encoded_once_per_state_witness :
  ∃ text store',
    _buildTable (λ key, key) shared_table example_rows example_generator
    = Ok (text, store')
        (with_slots (<["ROWS_COUNT" := "2"]> (slots example_generator))
           example_generator)
    ∧ store' !! 0
      = Some [("1", VStr "{TE::Transit, {TE::Shift, 3}}");
              ("2", VStr "{TE::Transit, {TE::Transit, 5}}")].
Proof.
  destruct (rows_encoded_once_per_state (λ key, key) shared_table example_rows
              example_generator 0 [("1", VStr "s3"); ("2", VNum 5)])
    as (text & store' & Hrun & Hrow & _).
  - reflexivity.
  - apply (bool_decide_unpack _). vm_compute. exact I.
  - exists text, store'. split; [exact Hrun|]. rewrite Hrow.
    vm_compute. reflexivity.
Defined.

(** ** The terminal map *)

Lemma recordTerminals_declared (grammar : Grammar)
  (terminalsMap : gmap string nat) (tokens : list (string * nat))
  (token : string) :
  token ∈ _tokensMap grammar →
  recordTerminals grammar terminalsMap tokens !! token = terminalsMap !! token.
Proof.
  intros Hdecl. revert terminalsMap.
  induction tokens as [|[t i] tokens IH]; intros terminalsMap; [done|].
  rewrite recordTerminals_cons, IH. case_bool_decide as Ht; [done|].
  apply lookup_insert_ne. by intros ->.
Qed.

(** X14: [generateTokenTypes] writes the slot [TOKEN_TYPES] and no other
    slot and stores no handler. It writes one member for each terminal; a
    terminal the grammar declares as a named token keeps its own name. In
    the terminal map it leaves the entry of every declared token and of
    every text that is no terminal as it was, and binds every other terminal
    to its code. *)
Theorem tokenTypes_terminal_map (this : Generator) :
  ∃ this' members,
    generateTokenTypes this = Ok () this'
    ∧ slots this'
      = <["TOKEN_TYPES" := join ("," +:+ nl +:+ "  ") members]> (slots this)
    ∧ _productionHandlers this' = _productionHandlers this
    ∧ _lexHandlers this' = _lexHandlers this
    ∧ length members = length (_tokens this)
    ∧ (∀ i token index,
         _tokens this !! i = Some (token, index) →
         token ∈ _tokensMap (_grammar this) →
         members !! i = Some (token +:+ " = " +:+ pretty index))
    ∧ (∀ token,
         token ∈ _tokensMap (_grammar this)
         ∨ token ∉ obj_keys (_tokens this) →
         _terminalsMap this' !! token = _terminalsMap this !! token)
    ∧ (NoDup (obj_keys (_tokens this)) →
       ∀ token index,
         (token, index) ∈ _tokens this →
         token ∉ _tokensMap (_grammar this) →
         _terminalsMap this' !! token = Some index).
Proof.
  eexists _, (tokenTypeMember (_grammar this) <$> _tokens this).
  split_and!.
  - apply generateTokenTypes_run.
  - done.
  - done.
  - done.
  - by rewrite length_fmap.
  - intros i token index Hi Hdecl. rewrite list_lookup_fmap, Hi.
    cbn [option_fmap option_map fmap tokenTypeMember].
    by rewrite bool_decide_eq_true_2.
  - cbn [_terminalsMap with_slots with_terminalsMap].
    intros token [Hdecl|Hnone].
    + by apply recordTerminals_declared.
    + by apply recordTerminals_other.
  - cbn [_terminalsMap with_slots with_terminalsMap].
    intros Hnodup token index Hin Hdecl. by apply recordTerminals_lookup.
Qed.

(** ** A lexical rule that returns a literal token *)

Lemma startsWith_before_char (q : ascii) (p a t : string) :
  has_char q p = false →
  startsWith p (a +:+ String q t) = startsWith p a.
Proof.
  revert a. induction p as [|c p IH]; intros a Hq; [by destruct a|].
  simpl in Hq. apply orb_false_iff in Hq as [Hc Hq].
  destruct a as [|x a].
  - rewrite str_app_nil_l. simpl. by rewrite Hc.
  - rewrite str_app_cons. simpl. by rewrite IH.
Qed.

Lemma includes_across_char (q : ascii) (p a t : string) :
  has_char q p = false → p ≠ "" →
  includes (a +:+ String q t) p = includes a p || includes t p.
Proof.
  intros Hq Hne. induction a as [|x a IH].
  - rewrite str_app_nil_l. destruct p as [|c p]; [done|].
    simpl in Hq. apply orb_false_iff in Hq as [Hc Hq].
    cbn [includes startsWith]. by rewrite Hc.
  - rewrite str_app_cons. cbn [includes]. rewrite IH, orb_assoc.
    f_equal. f_equal. apply (startsWith_before_char q p (String x a) t Hq).
Qed.

Lemma scopeNames_untouched (code : string) :
  includes code "yytext" = false → includes code "__" = false →
  scopeNames code = code.
Proof.
  intros Hyytext Hresult. unfold scopeNames, replace_all.
  rewrite (replace_go_untouched re_yytext _ "yytext") by
    (done || apply lit_needs_start).
  apply (replace_go_untouched re_result_var _ "__"); [|done].
  apply result_var_needs_start.
Qed.

Lemma strip_trailing_quote_snoc (q : ascii) (s : string) :
  is_quote q = true → strip_trailing_quote (s +:+ String q "") = s.
Proof.
  intros Hq. induction s as [|c s IH].
  - simpl. by rewrite Hq.
  - rewrite str_app_cons. cbn [strip_trailing_quote]. rewrite IH.
    by destruct s.
Qed.

Lemma strip_quotes_quoted (token : string) :
  strip_quotes ("'" +:+ token +:+ "'") = token.
Proof.
  rewrite strip_quotes_spec.
  change ("'" +:+ token +:+ "'") with (String "'" (token +:+ "'")).
  cbn [strip_leading_quote]. change (is_quote "'") with true. cbn iota.
  by apply strip_trailing_quote_snoc.
Qed.

Lemma trimStart_nonspace (c : ascii) (s : string) :
  js_space c = false → trimStart (String c s) = String c s.
Proof. intros Hc. simpl. by rewrite Hc. Qed.

Lemma trimEnd_nonspace (c : ascii) (s : string) :
  js_space c = false → trimEnd (s +:+ String c "") = s +:+ String c "".
Proof.
  intros Hc. induction s as [|a s IH].
  - simpl. by rewrite Hc.
  - rewrite str_app_cons. cbn [trimEnd]. rewrite IH. by destruct s.
Qed.

Lemma semicolon_test_false (handler : string) :
  has_char ";" handler = false → test re_ends_with_semicolon handler = false.
Proof.
  intros Hnone. destruct (test re_ends_with_semicolon handler) eqn:Htest; [|done].
  apply search_inv in Htest as (pre & s' & m & -> & Hm).
  destruct (proj1 (ends_with_semicolon_at _ s') (ex_intro _ m Hm))
    as (w & -> & _).
  rewrite !has_char_app in Hnone. simpl in Hnone.
  by rewrite orb_true_r in Hnone.
Qed.

Lemma not_semicolon_has_char (s : string) :
  all_str not_semicolon s = negb (has_char ";" s).
Proof.
  induction s as [|a s IH]; [done|]. simpl. rewrite IH.
  unfold not_semicolon, is_semicolon. by rewrite negb_orb.
Qed.

Lemma actionFromHandler_literal (terminalsMap : gmap string nat)
  (token : string) (code : nat) :
  terminalsMap !! token = Some code →
  is_empty_literal token = false →
  has_char ";" token = false →
  includes token "yytext" = false →
  includes token "__" = false →
  _actionFromHandler terminalsMap ("return '" +:+ token +:+ "'")
  = "return TokenType::TOKEN_TYPE_" +:+ pretty code +:+ ";".
Proof.
  intros Hlookup Hempty Hsemi Hyytext Hresult. unfold _actionFromHandler.
  rewrite semicolon_test_false
    by (by rewrite !has_char_app, Hsemi).
  set (handler := ("return '" +:+ token +:+ "'") +:+ ";").
  assert (∀ p, has_char "'" p = false → p ≠ "" →
               includes "return " p = false → includes ";" p = false →
               includes token p = false → includes handler p = false)
    as Hacross.
  { intros p Hq Hne Hhead Htail Htoken.
    assert (handler = "return " +:+ String "'" (token +:+ String "'" ";"))
      as -> by (unfold handler; by rewrite !str_app_assoc).
    rewrite !(includes_across_char "'" p) by done.
    by rewrite Hhead, Htail, Htoken. }
  assert (scopeNames handler = handler) as Hnames.
  { apply scopeNames_untouched; by apply Hacross. }
  rewrite (scopeVars_first_return terminalsMap handler "" " "
             ("'" +:+ token +:+ "'") "").
  - cbn [scopeReturn]. rewrite strip_quotes_quoted, Hempty, Hlookup.
    change (replace_all tokenRe (scopeReturn terminalsMap) "") with "".
    rewrite str_app_nil_l, str_app_nil_r.
    assert (trim ("return TokenType::TOKEN_TYPE_" +:+ pretty code +:+ ";")
            = "return TokenType::TOKEN_TYPE_" +:+ pretty code +:+ ";") as ->.
    { unfold trim.
      change ("return TokenType::TOKEN_TYPE_" +:+ pretty code +:+ ";")
        with (String "r" ("eturn TokenType::TOKEN_TYPE_" +:+ pretty code
                          +:+ ";")).
      rewrite trimStart_nonspace by done.
      change (String "r" ("eturn TokenType::TOKEN_TYPE_" +:+ pretty code
                          +:+ ";"))
        with ("return TokenType::TOKEN_TYPE_" +:+ (pretty code +:+ ";")).
      rewrite <-str_app_assoc. by apply trimEnd_nonspace. }
    reflexivity.
  - rewrite Hnames. unfold first_return_statement. split_and!.
    + reflexivity.
    + reflexivity.
    + done.
    + reflexivity.
    + by intros c [= <-].
    + done.
    + rewrite not_semicolon_has_char, !has_char_app, Hsemi. reflexivity.
Qed.

(** X15: a lexical rule whose handler returns a quoted terminal that the
    grammar does not declare as a named token, written with or without the
    word [return], gets the handler [return TokenType::TOKEN_TYPE_<code>;]
    once the token types are written first; the member of that name is the
    one [generateTokenTypes] writes for the terminal, unless the terminal is
    [$]. The terminal is none of the empty literals and holds no semicolon,
    no [yytext], no [__] and, where the handler leaves the word [return]
    out, no [return]. *)
Theorem literal_token_handler (this : Generator) (token : string)
  (index i : nat) (lexRule : LexRule) :
  NoDup (obj_keys (_tokens this)) →
  (token, index) ∈ _tokens this →
  token ∉ _tokensMap (_grammar this) →
  is_empty_literal token = false →
  has_char ";" token = false →
  includes token "yytext" = false →
  includes token "__" = false →
  getRules (getLexGrammar (_grammar this)) !! i = Some lexRule →
  getRawHandler lexRule = "return '" +:+ token +:+ "'"
  ∨ (getRawHandler lexRule = "'" +:+ token +:+ "'"
     ∧ includes token "return" = false) →
  ∃ this1 this2 members,
    generateTokenTypes this = Ok () this1
    ∧ generateLexRules this1 = Ok () this2
    ∧ slots this1 !! "TOKEN_TYPES" = Some (join ("," +:+ nl +:+ "  ") members)
    ∧ (token ≠ "$" →
       ("TOKEN_TYPE_" +:+ pretty index +:+ " = " +:+ pretty index) ∈ members)
    ∧ _lexHandlers this2 !! (length (_lexHandlers this) + i)
      = Some
          {| args := "const Tokenizer& tokenizer, const std::string& yytext";
             action :=
               "return TokenType::TOKEN_TYPE_" +:+ pretty index +:+ ";" |}.
Proof.
  intros Hnodup Hin Hdecl Hempty Hsemi Hyytext Hresult Hi Hraw.
  eexists _, _, (tokenTypeMember (_grammar this) <$> _tokens this).
  split_and!.
  - apply generateTokenTypes_run.
  - apply generateLexRules_run.
  - cbn [slots with_slots]. by rewrite lookup_insert_eq.
  - intros Heof. apply (list_elem_of_fmap_2' _ _ (token, index)); [done|].
    cbn [tokenTypeMember]. rewrite bool_decide_eq_false_2 by done.
    by rewrite bool_decide_eq_false_2 by done.
  - cbn [_lexHandlers _terminalsMap _grammar with_slots with_lexHandlers
           with_terminalsMap].
    rewrite lookup_app_r by lia.
    replace (length (_lexHandlers this) + i - length (_lexHandlers this))
      with i by lia.
    rewrite list_lookup_fmap, Hi. cbn [option_fmap option_map fmap].
    unfold lexHandlerOf. do 2 f_equal.
    assert ((if includes (getRawHandler lexRule) "return"
             then getRawHandler lexRule
             else "return " +:+ getRawHandler lexRule)
            = "return '" +:+ token +:+ "'") as ->.
    { destruct Hraw as [->|[-> Hreturn]].
      - by rewrite (includes_startsWith _ "return").
      - change ("'" +:+ token +:+ "'")
          with ("" +:+ String "'" (token +:+ String "'" "")).
        rewrite !(includes_across_char "'" "return") by done.
        by rewrite Hreturn. }
    apply actionFromHandler_literal; [|done..].
    by apply recordTerminals_lookup.
Qed.

Lemma literal_token_handler_witness :
  ∃ this1 this2,
    generateTokenTypes example_generator = Ok () this1
    ∧ generateLexRules this1 = Ok () this2
    ∧ slots this1 !! "TOKEN_TYPES"
      = Some ("__EOF = 0," +:+ nl +:+ "  TOKEN_TYPE_1 = 1")
    ∧ action <$> _lexHandlers this2 !! 0
      = Some "return TokenType::TOKEN_TYPE_1;".
Proof.
  destruct (literal_token_handler example_generator "a" 1 0 lexRule_a)
    as (this1 & this2 & members & Htypes & Hrules & Hslot & _ & Hhandler).
  - apply (bool_decide_unpack _). vm_compute. exact I.
  - apply (list_elem_of_lookup_2 _ 1). reflexivity.
  - apply not_elem_of_empty.
  - reflexivity.
  - reflexivity.
  - reflexivity.
  - reflexivity.
  - reflexivity.
  - right. split; reflexivity.
  - exists this1, this2. split_and!; [exact Htypes|exact Hrules| |].
    + vm_compute in Htypes. inversion Htypes. reflexivity.
    + simpl in Hhandler. rewrite Hhandler. reflexivity.
Defined.

(** ** The result variable *)

Lemma result_var_run (b : option ascii) (t : string) :
  word_opt b = false → word_opt (char0 t) = false →
  ∃ m, match_at re_result_var b ("__" +:+ t) = Some m ∧ consumed m = 2.
Proof.
  intros Hb Ht.
  set (m0 := {| consumed := 0; before := b; rest := "__" +:+ t;
                group1 := None |}).
  exists (run_over "__" m0). split; [|by rewrite run_over_consumed].
  unfold match_at, re_result_var. cbn [exec]. fold m0.
  change (word_opt (char0 (rest m0))) with true.
  change (word_opt (before m0)) with (word_opt b). rewrite Hb. cbn [xorb].
  rewrite (lit_run "__" t) by done.
  rewrite run_over_before, (run_over_rest "__" t) by done.
  simpl. by rewrite Ht.
Qed.

(** X16: an action that begins with the result variable [__], not followed
    by a letter, a digit or an underscore, and that holds no other [__], no
    [yytext] and no [return], is rewritten by [_scopeVars] into the
    declaration of the result variable: [auto ] is put in front and nothing
    else is changed, whatever the terminal map holds. *)
Theorem result_variable_declared (terminalsMap : gmap string nat)
  (post : string) :
  word_opt (char0 post) = false →
  includes post "__" = false →
  includes post "yytext" = false →
  includes post "return" = false →
  _scopeVars terminalsMap ("__" +:+ post) = "auto __" +:+ post.
Proof.
  intros Hpost Hresult Hyytext Hreturn. unfold _scopeVars.
  assert (scopeNames ("__" +:+ post) = "auto __" +:+ post) as ->.
  { unfold scopeNames, replace_all.
    rewrite (replace_go_untouched re_yytext _ "yytext");
      [|apply lit_needs_start|].
    - destruct (result_var_run None post eq_refl Hpost) as (m & Hm & Hconsumed).
      change ("__" +:+ post) with (String "_" (String "_" post)) in *.
      cbn [replace_go]. rewrite Hm, Hconsumed. cbn [replace_go].
      by rewrite (replace_go_untouched re_result_var _ "__")
        by (done || apply result_var_needs_start).
    - change ("__" +:+ post) with ("_" +:+ String "_" post).
      rewrite (includes_across_char "_" "yytext") by done.
      by rewrite Hyytext. }
  apply (replace_go_untouched tokenRe _ "return").
  - intros b' s'. apply tokenRe_no_return.
  - change ("auto __" +:+ post) with ("auto _" +:+ String "_" post).
    rewrite (includes_across_char "_" "return") by done.
    by rewrite Hreturn.
Qed.

Lemma result_variable_declared_witness :
  _scopeVars {["a" := 1]} "__ = _1 + _3;" = "auto __ = _1 + _3;".
Proof.
  apply (result_variable_declared {["a" := 1]} " = _1 + _3;");
    vm_compute; reflexivity.
Defined.

(** ** The productions *)

Lemma generateProductionsData_run (this : Generator) :
  generateProductionsData this
  = Ok (imap
          (λ index data,
             "{" +:+
             join ", " (array_set 2 ("&_handler" +:+ pretty (index + 1)) data)
             +:+ "}")
          (rawDataFrom (length (_productionHandlers this))
             (getProductions (_grammar this))))
      (with_productionHandlers
         (_productionHandlers this ++
          (productionHandlerOf this <$>
           filter (λ p, has_action p = true)
             (getProductions (_grammar this))))
         (with_slots
            (<["PRODUCTIONS_COUNT" :=
                 pretty (length (getProductions (_grammar this)))]>
               (slots this))
            this)).
Proof.
  unfold generateProductionsData. unfold mbind at 1, Gen_bind, get_this.
  unfold mbind at 1, Gen_bind, writeData.
  unfold mbind at 1, Gen_bind, generateRawProductionsData.
  unfold mbind at 1, Gen_bind, get_this.
  cbn [_grammar with_slots]. rewrite mapM_rawProductionData. reflexivity.
Qed.

Lemma rawDataFrom_length (n : nat) (productions : list Production) :
  length (rawDataFrom n productions) = length productions.
Proof.
  revert n. induction productions as [|p rest IH]; intros n; [done|].
  cbn [rawDataFrom]. destruct (has_action p); simpl; by rewrite IH.
Qed.

Lemma filter_length_lt {A} (P : A → Prop) `{!∀ x, Decision (P x)}
  (l : list A) (x : A) :
  x ∈ l → ¬ P x → length (filter P l) < length l.
Proof.
  induction l as [|y l IH]; intros Hin Hx.
  - by apply elem_of_nil in Hin.
  - rewrite filter_cons. apply elem_of_cons in Hin as [<-|Hin].
    + rewrite decide_False by done. pose proof (length_filter P l). simpl. lia.
    + specialize (IH Hin Hx). destruct (decide (P y)); simpl; lia.
Qed.

(** X17: [generateProductions] writes the number of the productions and one
    entry for each production, in their order; the entry of the production
    at place [i] holds the length of its right-hand side, 0 for an epsilon
    production, its left-hand side and the reference [&_handler<i+1>],
    whether or not the production has a semantic action. It stores one
    handler for each production with a semantic action; so when no handler
    was stored before and some production has no semantic action, there are
    fewer handlers than entries and the reference of the last entry names no
    handler. *)
Theorem production_entries_numbered (this : Generator) :
  let productions := getProductions (_grammar this) in
  ∃ entries this',
    generateProductions this = Ok () this'
    ∧ slots this' !! "PRODUCTIONS_COUNT" = Some (pretty (length productions))
    ∧ slots this' !! "PRODUCTIONS"
      = Some ("{{" +:+ join ("," +:+ nl) entries +:+ "}}")
    ∧ length entries = length productions
    ∧ (∀ i production,
         productions !! i = Some production →
         entries !! i
         = Some ("{" +:+
                 join ", "
                   [pretty (if isEpsilon production then 0
                            else length (getRHS production));
                    getLHS production;
                    "&_handler" +:+ pretty (i + 1)]
                 +:+ "}"))
    ∧ length (_productionHandlers this')
      = length (_productionHandlers this) +
        length (filter (λ p, has_action p = true) productions)
    ∧ (∀ production,
         _productionHandlers this = [] →
         production ∈ productions → has_action production = false →
         length (_productionHandlers this') < length entries).
Proof.
  intros productions.
  set (entries :=
         imap
           (λ index data,
              "{" +:+
              join ", "
                (array_set 2 ("&_handler" +:+ pretty (index + 1)) data)
              +:+ "}")
           (rawDataFrom (length (_productionHandlers this)) productions)).
  assert (length entries = length productions) as Hentries.
  { unfold entries. by rewrite length_imap, rawDataFrom_length. }
  exists entries. eexists. split_and!.
  - unfold generateProductions. unfold mbind at 1, Gen_bind.
    rewrite generateProductionsData_run. unfold writeData. reflexivity.
  - cbn [slots with_slots with_productionHandlers].
    rewrite lookup_insert_ne by done. by rewrite lookup_insert_eq.
  - cbn [slots with_slots with_productionHandlers].
    by rewrite lookup_insert_eq.
  - done.
  - intros i production Hi. unfold entries. rewrite list_lookup_imap.
    destruct (rawDataFrom_shape (length (_productionHandlers this)) _ _ _ Hi)
      as (reference & -> & Hlen).
    cbn [fmap option_fmap option_map]. do 3 f_equal.
    destruct reference as [|r [|r' reference]]; [done|done|simpl in Hlen; lia].
  - cbn [_productionHandlers with_slots with_productionHandlers].
    by rewrite length_app, length_fmap.
  - intros production Hnone Hin Haction.
    cbn [_productionHandlers with_slots with_productionHandlers].
    rewrite Hnone, Hentries. cbn [app]. rewrite length_fmap.
    apply (filter_length_lt _ _ production); [done|]. by rewrite Haction.
Qed.
